(** * Elrond: ring states and the installation group supervisor

    A shallow embedding of [model/ring_states.go] and of the installation
    group supervisor (package [supervisor]) of the Elrond ring-rollout
    service.

    States are Go strings and are kept as [string]s; the supervisor is
    written against two Go interfaces (the store and the provisioner), so
    its code is embedded as a program over the calls of those interfaces,
    which can then be run against any implementation of them. *)

From Stdlib Require Import String List ZArith Bool Lia.
Import ListNotations.
Local Open Scope string_scope.

(** ** model/ring_states.go *)

Definition RingStateStable := "stable".
Definition RingStateCreationRequested := "creation-requested".
Definition RingStateCreationFailed := "creation-failed".
Definition RingStateReleaseRequested := "release-requested".
Definition RingStateReleaseFailed := "release-failed".
Definition RingStateReleaseComplete := "release-complete".
Definition RingStateSoakingRequested := "soaking-requested".
Definition RingStateSoakingFailed := "soaking-failed".
Definition RingStateReleaseRollbackRequested := "release-rollback-requested".
Definition RingStateReleaseRollbackComplete := "release-rollback-complete".
Definition RingStateReleaseRollbackFailed := "release-rollback-failed".
Definition RingStateDeletionRequested := "deletion-requested".
Definition RingStateDeletionFailed := "deletion-failed".
Definition RingStateDeleted := "deleted".

(** Modelled from the spec: the constant [model.RingStateReleaseInProgress]
    is used by the supervisor but is not declared in [ring_states.go]; the
    spec lists the ring state [release-in-progress]. *)
Definition RingStateReleaseInProgress := "release-in-progress".

Definition AllRingStates : list string :=
  [ RingStateStable;
    RingStateCreationRequested;
    RingStateCreationFailed;
    RingStateReleaseRequested;
    RingStateReleaseFailed;
    RingStateReleaseComplete;
    RingStateSoakingRequested;
    RingStateSoakingFailed;
    RingStateReleaseRollbackRequested;
    RingStateReleaseRollbackFailed;
    RingStateReleaseRollbackComplete;
    RingStateDeletionRequested;
    RingStateDeletionFailed;
    RingStateDeleted ].

Definition AllRingStatesPendingWork : list string :=
  [ RingStateCreationRequested;
    RingStateReleaseRequested;
    RingStateSoakingRequested;
    RingStateReleaseRollbackRequested;
    RingStateDeletionRequested ].

Definition AllRingRequestStates : list string :=
  [ RingStateCreationRequested;
    RingStateReleaseRequested;
    RingStateSoakingRequested;
    RingStateReleaseRollbackRequested;
    RingStateDeletionRequested ].

(** A Go [switch] on a string with constant cases: the first case that is
    equal to the scrutinee is taken, [default] when there is none. *)
Fixpoint switch {A : Type} (s : string) (cases : list (string * A)) (default : A) : A :=
  match cases with
  | [] => default
  | (c, a) :: rest => if String.eqb s c then a else switch s rest default
  end.

(** Membership of a string in a list of constants (a multi-valued [case]). *)
Definition oneOf (s : string) (l : list string) : bool :=
  existsb (String.eqb s) l.

(** Modelled from the spec: the struct [model.Ring] is declared outside
    [ring_states.go]; these are the fields the spec lists that the code
    under study reads or writes. *)
Module Ring.
Record t : Type := mk {
    ID : string;
    Name : string;
    Priority : Z;
    SoakTime : Z;
    State : string;
    DesiredReleaseID : string;
    ActiveReleaseID : string;
    ReleaseAt : Z
  }.

Definition withState (s : string) (r : t) : t :=
    mk (ID r) (Name r) (Priority r) (SoakTime r) s
       (DesiredReleaseID r) (ActiveReleaseID r) (ReleaseAt r).

  (** [Ring{State: s}]: every other field has Go's zero value. *)
Definition ofState (s : string) : t := mk "" "" 0 0 s "" "" 0.
End Ring.

Definition validTransitionToRingStateCreationRequested (currentState : string) : bool :=
  oneOf currentState
    [ RingStateCreationRequested; RingStateCreationFailed ].

Definition validTransitionToRingStateReleaseRequested (currentState : string) : bool :=
  oneOf currentState
    [ RingStateStable; RingStateReleaseRequested; RingStateReleaseFailed ].

Definition validTransitionToRingStateDeletionRequested (currentState : string) : bool :=
  oneOf currentState
    [ RingStateStable; RingStateCreationRequested; RingStateCreationFailed;
      RingStateReleaseFailed; RingStateDeletionRequested; RingStateDeletionFailed ].

Definition validTransitionToRingStateSoakingRequested (currentState : string) : bool :=
  oneOf currentState
    [ RingStateReleaseComplete; RingStateSoakingRequested; RingStateSoakingFailed ].

Definition validTransitionToRingStateRollbackRequested (currentState : string) : bool :=
  oneOf currentState
    [ RingStateSoakingFailed; RingStateReleaseFailed; RingStateReleaseRollbackFailed ].

Definition ValidTransitionState (c : Ring.t) (newState : string) : bool :=
  switch newState
    [ (RingStateCreationRequested,
        validTransitionToRingStateCreationRequested (Ring.State c));
      (RingStateReleaseRequested,
        validTransitionToRingStateReleaseRequested (Ring.State c));
      (RingStateDeletionRequested,
        validTransitionToRingStateDeletionRequested (Ring.State c));
      (RingStateSoakingRequested,
        validTransitionToRingStateSoakingRequested (Ring.State c));
      (RingStateReleaseRollbackRequested,
        validTransitionToRingStateRollbackRequested (Ring.State c)) ]
    false.

(** The permitted API edges, as the specification lists them: the pair is
    (requested state, current state). *)
Definition permittedEdge (t s : string) : Prop :=
  (t = "creation-requested" /\
     In s ["creation-requested"; "creation-failed"]) \/
  (t = "release-requested" /\
     In s ["stable"; "release-requested"; "release-failed"]) \/
  (t = "deletion-requested" /\
     In s ["stable"; "creation-requested"; "creation-failed"; "release-failed";
           "deletion-requested"; "deletion-failed"]) \/
  (t = "soaking-requested" /\
     In s ["release-complete"; "soaking-requested"; "soaking-failed"]) \/
  (t = "release-rollback-requested" /\
     In s ["soaking-failed"; "release-failed"; "release-rollback-failed"]).

(** ** Data of the supervisor *)

(** Modelled from the spec: the installation group state constants of
    package [model] are declared outside the files under study; the strings
    are the ones the spec lists for installation groups. *)
Definition InstallationGroupStable := "stable".
Definition InstallationGroupReleasePending := "release-pending".
Definition InstallationGroupReleaseRequested := "release-requested".
Definition InstallationGroupReleaseInProgress := "release-in-progress".
Definition InstallationGroupReleaseFailed := "release-failed".
Definition InstallationGroupReleaseSoakingRequested := "soaking-requested".
Definition InstallationGroupReleaseSoakingFailed := "soaking-failed".

(** Modelled from the spec: the pending-work set of installation groups. *)
Definition AllInstallationGroupStatesPendingWork : list string :=
  [ InstallationGroupReleasePending;
    InstallationGroupReleaseRequested;
    InstallationGroupReleaseInProgress;
    InstallationGroupReleaseSoakingRequested ].

(** Modelled from the spec: the webhook payload types ["ring"] and
    ["installation-group"]; the supervisor names the constant
    [model.TypeRing]. *)
Definition TypeRing := "ring".
Definition TypeInstallationGroup := "installation-group".

(** Modelled from the spec: the struct [model.InstallationGroup].
    [LockAcquiredBy] is nil ([None]) when the row is unlocked. *)
Module InstallationGroup.
Record t : Type := mk {
    ID : string;
    Name : string;
    State : string;
    SoakTime : Z;
    ReleaseAt : Z;
    LockAcquiredBy : option string;
    LockAcquiredAt : Z
  }.

Definition withState (s : string) (g : t) : t :=
    mk (ID g) (Name g) s (SoakTime g) (ReleaseAt g)
       (LockAcquiredBy g) (LockAcquiredAt g).

Definition withReleaseAt (at_ : Z) (g : t) : t :=
    mk (ID g) (Name g) (State g) (SoakTime g) at_
       (LockAcquiredBy g) (LockAcquiredAt g).
End InstallationGroup.

(** Modelled from the spec: [model.RingRelease], [model.Webhook] and
    [model.WebhookPayload]. *)
Module RingRelease.
Record t : Type := mk {
    ID : string;
    Image : string;
    Version : string;
    Force : bool
  }.
End RingRelease.

Module Webhook.
Record t : Type := mk {
    ID : string;
    URL : string;
    OwnerID : string
  }.
End Webhook.

Module WebhookPayload.
Record t : Type := mk {
    Type_ : string;
    ID : string;
    NewState : string;
    OldState : string;
    Timestamp : Z
  }.
End WebhookPayload.

(** A Go result [(x, err)]: [Err] when [err != nil]. *)
Inductive result (A : Type) : Type :=
| Ok (a : A)
| Err (msg : string).
Arguments Ok {A} a.
Arguments Err {A} msg.

(** ** The calls of the supervisor's collaborators

    The methods of [installationGroupStore] and
    [installationGroupProvisioner], the clock ([time.Now().UnixNano()]) and
    the delivery of one webhook.  Logging has no effect on the state and is
    left out. *)
Inductive event : Type :=
| GetInstallationGroupsPendingWork
| GetInstallationGroupByID (id : string)
| UpdateInstallationGroup (installationGroup : InstallationGroup.t)
| GetWebhooks
| GetRingFromInstallationGroupID (installationGroupID : string)
| LockRingInstallationGroup (installationGroupID lockerID : string)
| UnlockRingInstallationGroup (installationGroupID lockerID : string) (force : bool)
| GetInstallationGroupsLocked
| GetInstallationGroupsReleaseInProgress
| GetRingRelease (releaseID : string)
| GetRingsPendingWork
| UpdateRings (rings : list Ring.t)
| ReleaseInstallationGroup (installationGroup : InstallationGroup.t) (image version : string)
| SoakInstallationGroup (installationGroup : InstallationGroup.t)
| TimeNowUnixNano
| PostWebhook (url : string) (payload : WebhookPayload.t).

(** The Go result type of each call. *)
Definition resp (e : event) : Type :=
  match e with
  | GetInstallationGroupsPendingWork => result (list InstallationGroup.t)
  | GetInstallationGroupByID _ => result InstallationGroup.t
  | UpdateInstallationGroup _ => result unit
  | GetWebhooks => result (list Webhook.t)
  | GetRingFromInstallationGroupID _ => result Ring.t
  | LockRingInstallationGroup _ _ => result bool
  | UnlockRingInstallationGroup _ _ _ => result bool
  | GetInstallationGroupsLocked => result (list InstallationGroup.t)
  | GetInstallationGroupsReleaseInProgress => result (list InstallationGroup.t)
  | GetRingRelease _ => result RingRelease.t
  | GetRingsPendingWork => result (list Ring.t)
  | UpdateRings _ => result unit
  | ReleaseInstallationGroup _ _ _ => result unit
  | SoakInstallationGroup _ => result unit
  | TimeNowUnixNano => Z
  | PostWebhook _ _ => unit
  end.

(** A supervisor routine: it returns, or makes a call and goes on with the
    answer. *)
Inductive prog (R : Type) : Type :=
| Ret (r : R)
| Vis (e : event) (k : resp e -> prog R).
Arguments Ret {R} r.
Arguments Vis {R} e k.

Fixpoint bind {A B : Type} (p : prog A) (f : A -> prog B) : prog B :=
  match p with
  | Ret a => f a
  | Vis e k => Vis e (fun x => bind (k x) f)
  end.

Definition call (e : event) : prog (resp e) := Vis e Ret.

Declare Scope prog_scope.
Delimit Scope prog_scope with prog.
Notation "x <- p ;; q" := (bind p (fun x => q))
  (at level 61, p at next level, right associativity) : prog_scope.
Notation "p ;; q" := (bind p (fun _ => q))
  (at level 61, right associativity) : prog_scope.
Local Open Scope prog_scope.

(** [for _, a := range l { f(a) }] *)
Fixpoint forEach {A : Type} (l : list A) (f : A -> prog unit) : prog unit :=
  match l with
  | [] => Ret tt
  | a :: rest => f a ;; forEach rest f
  end.

(** ** 64-bit integers *)

Definition wrap64 (z : Z) : Z := (z + 2 ^ 63) mod 2 ^ 64 - 2 ^ 63.

(** [int64(time.Second)], in nanoseconds. *)
Definition Second : Z := 1000000000.

(** [(time.Now().UnixNano() - installationGroup.ReleaseAt) / int64(time.Second)]:
    the subtraction wraps around, the division truncates towards zero. *)
Definition timePassed (now : Z) (installationGroup : InstallationGroup.t) : Z :=
  Z.quot (wrap64 (now - InstallationGroup.ReleaseAt installationGroup)) Second.

(** ** The installation group lock *)

(** Modelled from the spec: [installationGroupLock.TryLock] is declared
    outside the file under study.  It asks the store for the lock of the
    installation group on behalf of the supervisor instance and succeeds
    iff the store answers [true] without an error. *)
Definition TryLock (installationGroupID lockerID : string) : prog bool :=
  r <- call (LockRingInstallationGroup installationGroupID lockerID) ;;
  match r with
  | Err _ => Ret false
  | Ok locked => Ret locked
  end.

(** Modelled from the spec: [installationGroupLock.Unlock] clears the
    marker without force; a failed unlock is logged and not propagated. *)
Definition Unlock (installationGroupID lockerID : string) : prog unit :=
  _ <- call (UnlockRingInstallationGroup installationGroupID lockerID false) ;;
  Ret tt.

(** ** Webhooks *)

(** Modelled from the spec: [webhook.SendToAllWebhooks] enumerates all
    webhooks (unfiltered) and posts the payload to each URL; the error of
    the enumeration is returned, delivery errors are not. *)
Definition SendToAllWebhooks (payload : WebhookPayload.t) : prog (result unit) :=
  r <- call GetWebhooks ;;
  match r with
  | Err msg => Ret (Err msg)
  | Ok hooks =>
      forEach hooks (fun hook => call (PostWebhook (Webhook.URL hook) payload)) ;;
      Ret (Ok tt)
  end.

(** ** The installation group supervisor *)

Definition checkInstallationGroupPending (installationGroup : InstallationGroup.t)
  : prog string :=
  r <- call (GetRingFromInstallationGroupID (InstallationGroup.ID installationGroup)) ;;
  match r with
  | Err _ => Ret InstallationGroupReleaseFailed
  | Ok ring =>
      if String.eqb (Ring.State ring) RingStateReleaseFailed then
        Ret InstallationGroupReleaseFailed
      else if negb (String.eqb (Ring.State ring) RingStateReleaseRequested)
              && negb (String.eqb (Ring.State ring) RingStateReleaseInProgress) then
        Ret InstallationGroupReleasePending
      else
        r <- call GetInstallationGroupsLocked ;;
        match r with
        | Err _ => Ret InstallationGroupReleaseFailed
        | Ok installationGroupsLocked =>
            r <- call GetInstallationGroupsReleaseInProgress ;;
            match r with
            | Err _ => Ret InstallationGroupReleaseFailed
            | Ok installationGroupsReleaseInProgress =>
                if (1 <? length installationGroupsLocked)%nat
                   || (0 <? length installationGroupsReleaseInProgress)%nat then
                  Ret InstallationGroupReleasePending
                else
                  Ret InstallationGroupReleaseRequested
            end
        end
  end.

Definition releaseInstallationGroup (installationGroup : InstallationGroup.t)
  : prog string :=
  r <- call (GetRingFromInstallationGroupID (InstallationGroup.ID installationGroup)) ;;
  match r with
  | Err _ => Ret InstallationGroupReleaseFailed
  | Ok ring =>
      r <- call (GetRingRelease (Ring.DesiredReleaseID ring)) ;;
      match r with
      | Err _ => Ret InstallationGroupReleaseFailed
      | Ok release =>
          r <- call (ReleaseInstallationGroup installationGroup
                       (RingRelease.Image release) (RingRelease.Version release)) ;;
          match r with
          | Err _ => Ret InstallationGroupReleaseFailed
          | Ok _ =>
              if RingRelease.Force release then
                Ret InstallationGroupStable
              else
                Ret InstallationGroupReleaseSoakingRequested
          end
      end
  end.

Definition soakInstallationGroup (installationGroup : InstallationGroup.t)
  : prog string :=
  now <- call TimeNowUnixNano ;;
  if (timePassed now installationGroup <? InstallationGroup.SoakTime installationGroup)%Z then
    Ret InstallationGroupReleaseSoakingRequested
  else
    r <- call (SoakInstallationGroup installationGroup) ;;
    match r with
    | Err _ => Ret InstallationGroupReleaseSoakingFailed
    | Ok _ => Ret InstallationGroupStable
    end.

Definition transitionInstallationGroup (installationGroup : InstallationGroup.t)
  : prog string :=
  switch (InstallationGroup.State installationGroup)
    [ (InstallationGroupReleasePending,
        checkInstallationGroupPending installationGroup);
      (InstallationGroupReleaseRequested,
        releaseInstallationGroup installationGroup);
      (InstallationGroupReleaseSoakingRequested,
        soakInstallationGroup installationGroup) ]
    (Ret (InstallationGroup.State installationGroup)).

(** The end of [Supervise], lines 148 to 159: the webhook payload is built
    and sent to all webhooks. *)
Definition notify (installationGroup : InstallationGroup.t) (newState oldState : string)
  : prog unit :=
  now <- call TimeNowUnixNano ;;
  let webhookPayload :=
    WebhookPayload.mk TypeRing (InstallationGroup.ID installationGroup)
                      newState oldState now in
  _ <- SendToAllWebhooks webhookPayload ;;
  Ret tt.

(** The part of [Supervise] that writes the installation group and what
    follows, lines 125 to 159.  Each [Ret tt] before [notify] is a [return]
    of the Go function. *)
Definition commit (installationGroup : InstallationGroup.t) (newState oldState : string)
  : prog unit :=
  r <- call (UpdateInstallationGroup installationGroup) ;;
  match r with
  | Err _ => Ret tt
  | Ok _ =>
      if String.eqb newState InstallationGroupReleaseFailed
         || String.eqb newState InstallationGroupReleaseSoakingFailed
      then
        r <- call GetRingsPendingWork ;;
        match r with
        | Err _ => Ret tt
        | Ok rings =>
            let rings := map (Ring.withState RingStateReleaseFailed) rings in
            r <- call (UpdateRings rings) ;;
            match r with
            | Err _ => Ret tt
            | Ok _ => notify installationGroup newState oldState
            end
        end
      else
        notify installationGroup newState oldState
  end.

(** The part of [Supervise] that runs once the new state is computed and
    the installation group is read again: lines 115 to 159. *)
Definition persist (installationGroup : InstallationGroup.t) (newState : string)
  : prog unit :=
  if String.eqb (InstallationGroup.State installationGroup) newState then
    Ret tt
  else
    let oldState := InstallationGroup.State installationGroup in
    let installationGroup := InstallationGroup.withState newState installationGroup in
    if String.eqb oldState InstallationGroupReleaseRequested
       && (String.eqb newState InstallationGroupReleaseSoakingRequested
           || String.eqb newState InstallationGroupStable)
    then
      now <- call TimeNowUnixNano ;;
      commit (InstallationGroup.withReleaseAt now installationGroup) newState oldState
    else
      commit installationGroup newState oldState.

(** The body of [Supervise] that runs under the lock: lines 90 to 159. *)
Definition superviseLocked (installationGroup : InstallationGroup.t) : prog unit :=
  let originalState := InstallationGroup.State installationGroup in
  r <- call (GetInstallationGroupByID (InstallationGroup.ID installationGroup)) ;;
  match r with
  | Err _ => Ret tt
  | Ok installationGroup =>
      if negb (String.eqb (InstallationGroup.State installationGroup) originalState) then
        Ret tt
      else
        newState <- transitionInstallationGroup installationGroup ;;
        r <- call (GetInstallationGroupByID (InstallationGroup.ID installationGroup)) ;;
        match r with
        | Err _ => Ret tt
        | Ok installationGroup => persist installationGroup newState
        end
  end.

(** [Supervise]: the lock is taken first, and [defer lock.Unlock()] releases
    it on every return that follows. *)
Definition Supervise (instanceID : string) (installationGroup : InstallationGroup.t)
  : prog unit :=
  locked <- TryLock (InstallationGroup.ID installationGroup) instanceID ;;
  if (locked : bool) then
    superviseLocked installationGroup ;;
    Unlock (InstallationGroup.ID installationGroup) instanceID
  else
    Ret tt.

Definition Do (instanceID : string) : prog unit :=
  r <- call GetInstallationGroupsPendingWork ;;
  match r with
  | Err _ => Ret tt
  | Ok installationGroups => forEach installationGroups (Supervise instanceID)
  end.

(** ** Running a routine against an implementation of the interfaces *)

Section Run.
(** The state of the collaborators (database, provisioner back-end, clock)
    and what each call answers and changes. *)
Variable W : Type.
Variable handle : forall e : event, W -> resp e * W.

Record outcome (R : Type) : Type := mkOutcome {
  value : R;
  world : W;
  trace : list event
}.
Arguments mkOutcome {R} value world trace.
Arguments value {R} o.
Arguments world {R} o.
Arguments trace {R} o.

Definition after {R : Type} (e : event) (o : outcome R) : outcome R :=
  mkOutcome (value o) (world o) (e :: trace o).

(** [run p w]: the value returned, the final state and the calls made,
    in order. *)
Fixpoint run {R : Type} (p : prog R) (w : W) : outcome R :=
  match p with
  | Ret r => mkOutcome r w []
  | Vis e k => after e (run (k (fst (handle e w))) (snd (handle e w)))
  end.
End Run.
Arguments mkOutcome {W R} value world trace.
Arguments value {W R} o.
Arguments world {W R} o.
Arguments trace {W R} o.
Arguments after {W R} e o.
Arguments run {W} handle {R} p w.

(** ** A reference implementation of the interfaces *)

(** Modelled from the spec: the SQL store is outside the files under study.
    The store holds the rows of each table; a ring owns its installation
    groups through the membership table [ringInstallationGroups], whose
    entries are (ring ID, installation group ID). *)
Record Store : Type := mkStore {
  installationGroups : list InstallationGroup.t;
  rings : list Ring.t;
  ringInstallationGroups : list (string * string);
  ringReleases : list RingRelease.t;
  webhooks : list Webhook.t
}.

(** What one call meets outside the rows: a transient error of the store,
    an error of the provisioner, the wall clock. *)
Record oracle : Type := mkOracle {
  storeFault : bool;
  provisionerFault : bool;
  clock : Z
}.

Definition calm : oracle := mkOracle false false 0.

Definition isLocked (g : InstallationGroup.t) : bool :=
  match InstallationGroup.LockAcquiredBy g with
  | Some _ => true
  | None => false
  end.

Definition inReleaseInProgress (g : InstallationGroup.t) : bool :=
  String.eqb (InstallationGroup.State g) InstallationGroupReleaseInProgress.

Definition hasID (id : string) (g : InstallationGroup.t) : bool :=
  String.eqb (InstallationGroup.ID g) id.

Definition withLock (by_ : option string) (at_ : Z) (g : InstallationGroup.t)
  : InstallationGroup.t :=
  InstallationGroup.mk (InstallationGroup.ID g) (InstallationGroup.Name g)
    (InstallationGroup.State g) (InstallationGroup.SoakTime g)
    (InstallationGroup.ReleaseAt g) by_ at_.

(** The row keeps its lock columns; the other columns are overwritten. *)
Definition overwrite (new old : InstallationGroup.t) : InstallationGroup.t :=
  InstallationGroup.mk (InstallationGroup.ID old) (InstallationGroup.Name new)
    (InstallationGroup.State new) (InstallationGroup.SoakTime new)
    (InstallationGroup.ReleaseAt new)
    (InstallationGroup.LockAcquiredBy old) (InstallationGroup.LockAcquiredAt old).

Definition updateWhere {A : Type} (p : A -> bool) (f : A -> A) (l : list A) : list A :=
  map (fun a => if p a then f a else a) l.

Definition setInstallationGroups (l : list InstallationGroup.t) (st : Store) : Store :=
  mkStore l (rings st) (ringInstallationGroups st) (ringReleases st) (webhooks st).

Definition setRings (l : list Ring.t) (st : Store) : Store :=
  mkStore (installationGroups st) l (ringInstallationGroups st) (ringReleases st)
          (webhooks st).

Definition updateRing (l : list Ring.t) (r : Ring.t) : list Ring.t :=
  updateWhere (fun old => String.eqb (Ring.ID old) (Ring.ID r)) (fun _ => r) l.

Definition notFound {A : Type} (o : option A) : result A :=
  match o with
  | Some a => Ok a
  | None => Err "not found"
  end.

Definition ringOf (st : Store) (installationGroupID : string) : option Ring.t :=
  match find (fun m => String.eqb (snd m) installationGroupID)
             (ringInstallationGroups st) with
  | Some (ringID, _) => find (fun r => String.eqb (Ring.ID r) ringID) (rings st)
  | None => None
  end.

Definition transient : string := "transient store error".

(** Modelled from the spec: what each call answers and how it changes the
    rows.  Discovery returns the rows whose state is in the pending-work
    set; a lock is acquired iff the row is unlocked; an unlock clears the
    marker iff the caller owns it or forces; every store operation may fail
    with a transient error, which changes nothing. *)
Definition storeCall (o : oracle) (e : event) (st : Store) : resp e * Store :=
  match e return resp e * Store with
  | GetInstallationGroupsPendingWork =>
      if storeFault o then (Err transient, st) else
      (Ok (filter (fun g => oneOf (InstallationGroup.State g)
                                  AllInstallationGroupStatesPendingWork)
                  (installationGroups st)), st)
  | GetInstallationGroupByID id =>
      if storeFault o then (Err transient, st) else
      (notFound (find (hasID id) (installationGroups st)), st)
  | UpdateInstallationGroup g =>
      if storeFault o then (Err transient, st) else
      (Ok tt, setInstallationGroups
                (updateWhere (hasID (InstallationGroup.ID g)) (overwrite g)
                             (installationGroups st)) st)
  | GetWebhooks =>
      if storeFault o then (Err transient, st) else (Ok (webhooks st), st)
  | GetRingFromInstallationGroupID id =>
      if storeFault o then (Err transient, st) else (notFound (ringOf st id), st)
  | LockRingInstallationGroup id lockerID =>
      if storeFault o then (Err transient, st) else
      match find (hasID id) (installationGroups st) with
      | Some g =>
          if isLocked g then (Ok false, st) else
          (Ok true, setInstallationGroups
                      (updateWhere (hasID id) (withLock (Some lockerID) (clock o))
                                   (installationGroups st)) st)
      | None => (Ok false, st)
      end
  | UnlockRingInstallationGroup id lockerID force =>
      if storeFault o then (Err transient, st) else
      match find (hasID id) (installationGroups st) with
      | Some g =>
          if force || match InstallationGroup.LockAcquiredBy g with
                      | Some owner => String.eqb owner lockerID
                      | None => false
                      end
          then (Ok true, setInstallationGroups
                           (updateWhere (hasID id) (withLock None 0)
                                        (installationGroups st)) st)
          else (Ok false, st)
      | None => (Ok false, st)
      end
  | GetInstallationGroupsLocked =>
      if storeFault o then (Err transient, st) else
      (Ok (filter isLocked (installationGroups st)), st)
  | GetInstallationGroupsReleaseInProgress =>
      if storeFault o then (Err transient, st) else
      (Ok (filter inReleaseInProgress (installationGroups st)), st)
  | GetRingRelease id =>
      if storeFault o then (Err transient, st) else
      (notFound (find (fun r => String.eqb (RingRelease.ID r) id) (ringReleases st)), st)
  | GetRingsPendingWork =>
      if storeFault o then (Err transient, st) else
      (Ok (filter (fun r => oneOf (Ring.State r) AllRingStatesPendingWork) (rings st)), st)
  | UpdateRings rs =>
      if storeFault o then (Err transient, st) else
      (Ok tt, setRings (fold_left updateRing rs (rings st)) st)
  | ReleaseInstallationGroup _ _ _ =>
      (if provisionerFault o then Err "provisioner error" else Ok tt, st)
  | SoakInstallationGroup _ =>
      (if provisionerFault o then Err "provisioner error" else Ok tt, st)
  | TimeNowUnixNano => (clock o, st)
  | PostWebhook _ _ => (tt, st)
  end.

(** A sequential run is scripted by one oracle per call; when the script is
    used up, the remaining calls meet no error. *)
Definition scripted (e : event) (w : Store * list oracle)
  : resp e * (Store * list oracle) :=
  let o := hd calm (snd w) in
  (fst (storeCall o e (fst w)), (snd (storeCall o e (fst w)), tl (snd w))).

(** ** Several supervisor instances on one store *)

(** A supervisor instance and what is left of its current tick. *)
Record thread : Type := mkThread {
  instanceID : string;
  code : prog unit
}.

Record system : Type := mkSystem {
  store : Store;
  threads : list thread
}.

(** One step of the system: the instance [who] makes its next call, which
    the store serves atomically; an instance whose tick is over starts the
    next one. *)
Record choice : Type := mkChoice {
  who : nat;
  meets : oracle
}.

Fixpoint setNth {A : Type} (n : nat) (a : A) (l : list A) : list A :=
  match l, n with
  | [], _ => []
  | _ :: rest, O => a :: rest
  | b :: rest, S n' => b :: setNth n' a rest
  end.

Definition sysStep (s : system) (c : choice) : system :=
  match nth_error (threads s) (who c) with
  | None => s
  | Some t =>
      match code t with
      | Ret _ =>
          mkSystem (store s)
            (setNth (who c) (mkThread (instanceID t) (Do (instanceID t))) (threads s))
      | Vis e k =>
          let r := storeCall (meets c) e (store s) in
          mkSystem (snd r)
            (setNth (who c) (mkThread (instanceID t) (k (fst r))) (threads s))
      end
  end.

Definition exec (schedule : list choice) (s : system) : system :=
  fold_left sysStep schedule s.

(** The system before the first tick of any instance. *)
Definition boot (st : Store) (instances : list string) : system :=
  mkSystem st (map (fun i => mkThread i (Ret tt)) instances).

(** At most one installation group satisfies [p]. *)
Definition atMostOne (p : InstallationGroup.t -> bool) (st : Store) : Prop :=
  forall g1 g2,
    In g1 (installationGroups st) -> In g2 (installationGroups st) ->
    p g1 = true -> p g2 = true ->
    InstallationGroup.ID g1 = InstallationGroup.ID g2.

(** What [Supervise] writes when it persists [newState] over the row
    [g] just read, the clock showing [now]. *)
Definition released (now : Z) (newState : string) (g : InstallationGroup.t)
  : InstallationGroup.t :=
  InstallationGroup.mk (InstallationGroup.ID g) (InstallationGroup.Name g) newState
    (InstallationGroup.SoakTime g) now
    (InstallationGroup.LockAcquiredBy g) (InstallationGroup.LockAcquiredAt g).

(** ** Properties of all the runs of a routine *)

Section Safe.
(** [pre e]: the call [e] is allowed; [post e x]: the answer [x] to [e] is
    one the collaborators can give. *)
Variable pre : event -> Prop.
Variable post : forall e : event, resp e -> Prop.

(** [safe Q p]: whatever the collaborators answer within [post], the
    routine [p] makes allowed calls only and returns a value in [Q]. *)
Fixpoint safe {R : Type} (Q : R -> Prop) (p : prog R) : Prop :=
  match p with
  | Ret r => Q r
  | Vis e k => pre e /\ forall x : resp e, post e x -> safe Q (k x)
  end.
End Safe.

Definition anyAnswer (e : event) (x : resp e) : Prop := True.

(** The calls of a supervisor that leaves an installation group in state
    [s] alone: no provisioning, and no update that writes another state. *)
Definition quiet (s : string) (e : event) : Prop :=
  match e with
  | ReleaseInstallationGroup _ _ _ => False
  | SoakInstallationGroup _ => False
  | UpdateInstallationGroup g => InstallationGroup.State g = s
  | _ => True
  end.

(** The pending-work set of rings as the specification lists it. *)
Definition specRingStatesPendingWork : list string :=
  [ "creation-requested"; "release-requested"; "release-in-progress";
    "soaking-requested"; "release-rollback-requested"; "deletion-requested" ].

(** [pre] allows every call but, possibly, the writes of installation
    groups and the calls of the provisioner. *)
Definition benign (pre : event -> Prop) : Prop :=
  forall e,
    match e with
    | UpdateInstallationGroup _
    | ReleaseInstallationGroup _ _ _
    | SoakInstallationGroup _ => True
    | _ => pre e
    end.

Definition isUpdateRings (e : event) : bool :=
  match e with
  | UpdateRings _ => true
  | _ => false
  end.

Definition isPostWebhook (e : event) : bool :=
  match e with
  | PostWebhook _ _ => true
  | _ => false
  end.

Definition isUpdateInstallationGroup (e : event) : bool :=
  match e with
  | UpdateInstallationGroup _ => true
  | _ => false
  end.

(** The states of the installation groups of a store, row by row. *)
Definition groupStates (st : Store) : list string :=
  map InstallationGroup.State (installationGroups st).

(** ** A small system: one ring of two installation groups *)

Definition groupA : InstallationGroup.t :=
  InstallationGroup.mk "ig-a" "group a" "release-pending" 60 0 None 0.
Definition groupB : InstallationGroup.t :=
  InstallationGroup.mk "ig-b" "group b" "release-pending" 60 0 None 0.
Definition ring1 : Ring.t :=
  Ring.mk "ring-1" "ring one" 1 60 "release-requested" "release-1" "" 0.
Definition release1 : RingRelease.t :=
  RingRelease.mk "release-1" "elrond/app" "1.2.3" false.
Definition hook1 : Webhook.t :=
  Webhook.mk "hook-1" "https://hooks.example/elrond" "owner".

Definition store1 : Store :=
  mkStore [groupA; groupB] [ring1]
          [("ring-1", "ig-a"); ("ring-1", "ig-b")] [release1] [hook1].

(** The small system with its ring in state [s]. *)
Definition store1WithRing (s : string) : Store :=
  setRings [Ring.withState s ring1] store1.

(** The small system with both groups under lock. *)
Definition store1Locked : Store :=
  setInstallationGroups
    [ withLock (Some "supervisor-1") 0 groupA;
      withLock (Some "supervisor-2") 0 groupB ] store1.

Definition clockAt (seconds : Z) : oracle := mkOracle false false (seconds * Second).

Definition storeFails : oracle := mkOracle true false 0.
Definition provisionerFails : oracle := mkOracle false true 0.

(** ** Installation groups in release-in-progress *)

(** An installation group is busy when it is in [release-in-progress] or
    held under lock. *)
Definition busy (g : InstallationGroup.t) : bool :=
  inReleaseInProgress g || isLocked g.

Section ReleaseInProgress.
(** [known id]: the installation group [id] may be in
    [release-in-progress]. *)
Variable known : string -> Prop.

Definition covered (g : InstallationGroup.t) : Prop :=
  InstallationGroup.State g = "release-in-progress" -> known (InstallationGroup.ID g).

(** A write of an installation group keeps within [known]. *)
Definition writesCovered (e : event) : Prop :=
  match e with
  | UpdateInstallationGroup g => covered g
  | _ => True
  end.

(** What the reads of a store within [known] answer. *)
Definition readsCovered (e : event) : resp e -> Prop :=
  match e return resp e -> Prop with
  | GetInstallationGroupsPendingWork =>
      fun r => match r with
               | Ok l => Forall covered l
               | Err _ => True
               end
  | GetInstallationGroupByID id =>
      fun r => match r with
               | Ok g => InstallationGroup.ID g = id /\ covered g
               | Err _ => True
               end
  | _ => fun _ => True
  end.

Definition storeCovered (st : Store) : Prop :=
  Forall covered (installationGroups st).

(** The invariant of the system: the rows are within [known] and so is
    whatever the instances go on to write. *)
Definition sysCovered (s : system) : Prop :=
  storeCovered (store s) /\
  Forall (fun t => safe writesCovered readsCovered (fun _ => True) (code t)) (threads s).
End ReleaseInProgress.

Definition notInProgress (s : string) : Prop := s <> "release-in-progress".

(** The installation groups in [release-in-progress] at the start. *)
Definition inProgressIn (st : Store) (id : string) : Prop :=
  exists g, In g (installationGroups st) /\
            InstallationGroup.State g = "release-in-progress" /\
            InstallationGroup.ID g = id.

(** Two supervisor instances start a tick on the small system: the first
    discovers the groups and locks group a; the second discovers them,
    fails to lock group a and locks group b. *)
Definition twoInstances : list choice :=
  [ mkChoice 0 calm; mkChoice 0 calm; mkChoice 0 calm;
    mkChoice 1 calm; mkChoice 1 calm; mkChoice 1 calm; mkChoice 1 calm ].

(** ** The report of ring request states (model/ring_states.go) *)

Definition StateList : Type := list string.

Record StateReportEntry : Type := mkStateReportEntry {
  RequestedState : string;
  ValidStates : StateList;
  InvalidStates : StateList
}.

Definition RingStateReport : Type := list StateReportEntry.

(** [StateList.Count]: the length of the list. *)
Definition Count (sl : StateList) : Z := Z.of_nat (length sl).

(** The body of the inner loop: [newState] is appended to the valid or to
    the invalid states of the entry. *)
Definition addState (requestState : string) (entry : StateReportEntry) (newState : string)
  : StateReportEntry :=
  if ValidTransitionState (Ring.ofState newState) requestState then
    mkStateReportEntry (RequestedState entry)
                       (ValidStates entry ++ [newState])%list (InvalidStates entry)
  else
    mkStateReportEntry (RequestedState entry)
                       (ValidStates entry) (InvalidStates entry ++ [newState])%list.

(** One turn of the outer loop: the entry of [requestState]. *)
Definition reportEntry (requestState : string) : StateReportEntry :=
  fold_left (addState requestState) AllRingStates
            (mkStateReportEntry requestState [] []).

(** [GetRingRequestStateReport]: one entry per request state, appended in
    the order of [AllRingRequestStates]. *)
Definition GetRingRequestStateReport : RingStateReport :=
  fold_left (fun report requestState => (report ++ [reportEntry requestState])%list)
            AllRingRequestStates [].

(** ** Counting and classifying the calls of a run *)

Definition isProvisioner (e : event) : bool :=
  match e with
  | ReleaseInstallationGroup _ _ _ => true
  | SoakInstallationGroup _ => true
  | _ => false
  end.

Definition isLock (e : event) : bool :=
  match e with
  | LockRingInstallationGroup _ _ => true
  | _ => false
  end.

Definition isLockCall (e : event) : bool :=
  match e with
  | LockRingInstallationGroup _ _ => true
  | UnlockRingInstallationGroup _ _ _ => true
  | _ => false
  end.

Definition count (c : event -> bool) (t : list event) : nat := length (filter c t).

(** [atMost c n p]: no run of [p] makes more than [n] calls in [c]. *)
Fixpoint atMost {R : Type} (c : event -> bool) (n : nat) (p : prog R) : Prop :=
  match p with
  | Ret _ => True
  | Vis e k =>
      if c e then
        match n with
        | O => False
        | S m => forall x : resp e, atMost c m (k x)
        end
      else forall x : resp e, atMost c n (k x)
  end.

(** The calls [transitionInstallationGroup] may make for the group [g]. *)
Definition transitionCall (g : InstallationGroup.t) (e : event) : Prop :=
  match e with
  | GetRingFromInstallationGroupID id =>
      id = InstallationGroup.ID g /\
      (InstallationGroup.State g = "release-pending" \/
       InstallationGroup.State g = "release-requested")
  | GetInstallationGroupsLocked => InstallationGroup.State g = "release-pending"
  | GetInstallationGroupsReleaseInProgress => InstallationGroup.State g = "release-pending"
  | GetRingRelease _ => InstallationGroup.State g = "release-requested"
  | ReleaseInstallationGroup g' _ _ =>
      g' = g /\ InstallationGroup.State g = "release-requested"
  | SoakInstallationGroup g' =>
      g' = g /\ InstallationGroup.State g = "soaking-requested"
  | TimeNowUnixNano => InstallationGroup.State g = "soaking-requested"
  | _ => False
  end.

(** The edges of the installation group state machine. *)
Definition transitionEdge (old new : string) : Prop :=
  (old = "release-pending" /\
   In new ["release-failed"; "release-pending"; "release-requested"]) \/
  (old = "release-requested" /\
   In new ["release-failed"; "stable"; "soaking-requested"]) \/
  (old = "soaking-requested" /\
   In new ["soaking-requested"; "soaking-failed"; "stable"]) \/
  (old <> "release-pending" /\ old <> "release-requested" /\
   old <> "soaking-requested" /\ new = old).

Definition isFailure (s : string) : Prop :=
  s = "release-failed" \/ s = "soaking-failed".

(** The calls [persist] may make when it writes [newState] over the row
    [g] it was given. *)
Definition persistCall (g : InstallationGroup.t) (newState : string) (e : event) : Prop :=
  match e with
  | TimeNowUnixNano => True
  | GetWebhooks => True
  | UpdateInstallationGroup g' =>
      exists at_ : Z,
        g' = released at_ newState g /\
        (at_ <> InstallationGroup.ReleaseAt g ->
         InstallationGroup.State g = "release-requested" /\
         (newState = "soaking-requested" \/ newState = "stable"))
  | GetRingsPendingWork => isFailure newState
  | UpdateRings rs =>
      isFailure newState /\ Forall (fun r => Ring.State r = "release-failed") rs
  | PostWebhook _ p =>
      WebhookPayload.ID p = InstallationGroup.ID g /\
      WebhookPayload.NewState p = newState /\
      WebhookPayload.OldState p = InstallationGroup.State g /\
      WebhookPayload.NewState p <> WebhookPayload.OldState p
  | _ => False
  end.

(** The writes [Supervise] may make for a group found in state [s]. *)
Definition followsEdge (s : string) (e : event) : Prop :=
  match e with
  | UpdateInstallationGroup g' =>
      transitionEdge s (InstallationGroup.State g')
  | _ => True
  end.

(** ** Supervisor instances and their locks *)

(** Where a supervisor instance stands with the lock of an installation
    group: it holds none; it holds the lock of [id]; it holds it and has
    found no other installation group locked; it has also found none in
    release-in-progress. *)
Inductive phase : Type :=
| Idle
| Holding (id : string)
| Alone (id : string)
| Cleared (id : string).

Definition held (ph : phase) : option string :=
  match ph with
  | Idle => None
  | Holding id => Some id
  | Alone id => Some id
  | Cleared id => Some id
  end.

Definition aloneish (ph : phase) : bool :=
  match ph with
  | Alone _ => true
  | Cleared _ => true
  | _ => false
  end.

(** The phase after the call [e] is answered [x]. *)
Definition observe (ph : phase) (e : event) : resp e -> phase :=
  match e return resp e -> phase with
  | LockRingInstallationGroup id _ =>
      fun x => match x with
               | Ok true => Holding id
               | _ => ph
               end
  | UnlockRingInstallationGroup _ _ _ => fun _ => Idle
  | GetInstallationGroupsLocked =>
      fun x => match held ph with
               | None => Idle
               | Some id =>
                   match x with
                   | Ok l => if (length l <=? 1)%nat then Alone id else Holding id
                   | Err _ => Holding id
                   end
               end
  | GetInstallationGroupsReleaseInProgress =>
      fun x => match ph with
               | Alone id | Cleared id =>
                   match x with
                   | Ok [] => Cleared id
                   | _ => Holding id
                   end
               | _ => ph
               end
  | _ => fun _ => ph
  end.

Section Guarded.
Variable inst : string.

(** What the instance [inst] may call in phase [ph]. *)
Definition allowed (ph : phase) (e : event) : Prop :=
  match e with
  | LockRingInstallationGroup _ lockerID => lockerID = inst
  | UnlockRingInstallationGroup _ lockerID force => lockerID = inst /\ force = false
  | UpdateInstallationGroup g =>
      InstallationGroup.State g = "release-requested" -> exists id, ph = Cleared id
  | _ => True
  end.

Fixpoint guarded {R : Type} (Q : phase -> R -> Prop) (ph : phase) (p : prog R) : Prop :=
  match p with
  | Ret r => Q ph r
  | Vis e k => allowed ph e /\ forall x : resp e, guarded Q (observe ph e x) (k x)
  end.
End Guarded.

(** The phases after the step [c] of the system [s]. *)
Definition watch (s : system) (c : choice) (phases : list phase) : list phase :=
  match nth_error (threads s) (who c) with
  | None => phases
  | Some t =>
      match code t with
      | Ret _ => phases
      | Vis e _ =>
          setNth (who c)
                 (observe (nth (who c) phases Idle) e
                          (fst (storeCall (meets c) e (store s))))
                 phases
      end
  end.

(** The system and the phases of its instances, step by step. *)
Definition stepM (m : system * list phase) (c : choice) : system * list phase :=
  (sysStep (fst m) c, watch (fst m) c (snd m)).

Definition execM (schedule : list choice) (m : system * list phase)
  : system * list phase :=
  fold_left stepM schedule m.

Definition bootM (st : Store) (instances : list string) : system * list phase :=
  (boot st instances, map (fun _ => Idle) instances).

(** All the rows of the installation group [id], and there is one, are
    locked by [inst]. *)
Definition lockedBy (inst id : string) (st : Store) : Prop :=
  (exists r, In r (installationGroups st) /\ InstallationGroup.ID r = id) /\
  (forall r, In r (installationGroups st) -> InstallationGroup.ID r = id ->
             InstallationGroup.LockAcquiredBy r = Some inst).

(** The transition computed [release-requested] only in phase
    [Cleared]. *)
Definition clearedIfRequested (ph : phase) (s : string) : Prop :=
  s = "release-requested" -> exists id, ph = Cleared id.

(** The invariant of the watched system. *)
Definition sequential (m : system * list phase) : Prop :=
  length (snd m) = length (threads (fst m)) /\
  NoDup (map instanceID (threads (fst m))) /\
  (forall i t ph,
      nth_error (threads (fst m)) i = Some t -> nth_error (snd m) i = Some ph ->
      guarded (instanceID t) (fun _ _ => True) ph (code t) /\
      (forall id, held ph = Some id -> lockedBy (instanceID t) id (store (fst m)))) /\
  (forall i j phi phj,
      nth_error (snd m) i = Some phi -> nth_error (snd m) j = Some phj ->
      aloneish phi = true -> aloneish phj = true -> i = j).

(** The installation group [id] is held for release: an instance holds its
    lock and has since found no other installation group locked. *)
Definition heldForRelease (phases : list phase) (id : string) : Prop :=
  exists i ph, nth_error phases i = Some ph /\ aloneish ph = true /\ held ph = Some id.

(** Two instances race on the small system: the first discovers the
    groups, locks group a, reads it and its ring and finds no other group
    locked; the second then discovers the groups, fails to lock group a
    and locks group b; the first finds no group in release-in-progress and
    reads group a again. *)
Definition raced : list choice :=
  [ mkChoice 0 calm; mkChoice 0 calm; mkChoice 0 calm; mkChoice 0 calm;
    mkChoice 0 calm; mkChoice 0 calm;
    mkChoice 1 calm; mkChoice 1 calm; mkChoice 1 calm; mkChoice 1 calm;
    mkChoice 0 calm; mkChoice 0 calm ].

(** ** A system of three rings *)

(** [ring2] is pending work and is not the ring of group a; [ring3] is not
    pending work. *)
Definition ring2 : Ring.t :=
  Ring.mk "ring-2" "ring two" 2 60 "soaking-requested" "release-1" "" 0.
Definition ring3 : Ring.t :=
  Ring.mk "ring-3" "ring three" 3 60 "stable" "release-1" "" 0.

Definition store3 : Store :=
  mkStore [groupA; groupB] [ring1; ring2; ring3]
          [("ring-1", "ig-a"); ("ring-1", "ig-b")] [release1] [hook1].

(** ** Facts on [switch] and [oneOf] *)

Lemma oneOf_In (s : string) (l : list string) : oneOf s l = true <-> In s l.
Proof.
  unfold oneOf. rewrite existsb_exists. split.
  - intros [x [Hin Heq]]. apply String.eqb_eq in Heq. now subst.
  - intros Hin. exists s. split; [assumption | apply String.eqb_refl].
Qed.

Lemma switch_hit {A} (s c : string) (a : A) rest d :
  s = c -> switch s ((c, a) :: rest) d = a.
Proof. intros ->. simpl. now rewrite String.eqb_refl. Qed.

Lemma switch_miss {A} (s c : string) (a : A) rest d :
  s <> c -> switch s ((c, a) :: rest) d = switch s rest d.
Proof. intros H. simpl. apply String.eqb_neq in H. now rewrite H. Qed.

(** ** ValidTransitionState *)

(** C4: [Ring{State: s}.ValidTransitionState(t)] is true exactly on the
    permitted API edges, for all strings [s] and [t]; in particular it is
    false for every [t] when the ring is [deleted]. *)
Theorem ValidTransitionState_permitted :
  (forall s t : string,
      ValidTransitionState (Ring.ofState s) t = true <-> permittedEdge t s) /\
  (forall t : string,
      ValidTransitionState (Ring.ofState "deleted") t = false).
Proof.
  assert (Hiff : forall s t,
             ValidTransitionState (Ring.ofState s) t = true <-> permittedEdge t s).
  { intros s t. unfold ValidTransitionState, permittedEdge. cbn [Ring.State Ring.ofState].
    destruct (String.eqb_spec t RingStateCreationRequested) as [E1|N1].
    { rewrite (switch_hit _ _ _ _ _ E1).
      unfold validTransitionToRingStateCreationRequested. rewrite oneOf_In.
      subst t. split; [intros H; left; now split | ].
      intros [[_ H]|[[H _]|[[H _]|[[H _]|[H _]]]]]; [exact H | discriminate H ..]. }
    rewrite (switch_miss _ _ _ _ _ N1).
    destruct (String.eqb_spec t RingStateReleaseRequested) as [E2|N2].
    { rewrite (switch_hit _ _ _ _ _ E2).
      unfold validTransitionToRingStateReleaseRequested. rewrite oneOf_In.
      subst t. split; [intros H; right; left; now split | ].
      intros [[H _]|[[_ H]|[[H _]|[[H _]|[H _]]]]]; [discriminate H | exact H | discriminate H ..]. }
    rewrite (switch_miss _ _ _ _ _ N2).
    destruct (String.eqb_spec t RingStateDeletionRequested) as [E3|N3].
    { rewrite (switch_hit _ _ _ _ _ E3).
      unfold validTransitionToRingStateDeletionRequested. rewrite oneOf_In.
      subst t. split; [intros H; right; right; left; now split | ].
      intros [[H _]|[[H _]|[[_ H]|[[H _]|[H _]]]]];
        [discriminate H | discriminate H | exact H | discriminate H ..]. }
    rewrite (switch_miss _ _ _ _ _ N3).
    destruct (String.eqb_spec t RingStateSoakingRequested) as [E4|N4].
    { rewrite (switch_hit _ _ _ _ _ E4).
      unfold validTransitionToRingStateSoakingRequested. rewrite oneOf_In.
      subst t. split; [intros H; right; right; right; left; now split | ].
      intros [[H _]|[[H _]|[[H _]|[[_ H]|[H _]]]]];
        [discriminate H | discriminate H | discriminate H | exact H | discriminate H]. }
    rewrite (switch_miss _ _ _ _ _ N4).
    destruct (String.eqb_spec t RingStateReleaseRollbackRequested) as [E5|N5].
    { rewrite (switch_hit _ _ _ _ _ E5).
      unfold validTransitionToRingStateRollbackRequested. rewrite oneOf_In.
      subst t. split; [intros H; right; right; right; right; now split | ].
      intros [[H _]|[[H _]|[[H _]|[[H _]|[_ H]]]]];
        [discriminate H | discriminate H | discriminate H | discriminate H | exact H]. }
    rewrite (switch_miss _ _ _ _ _ N5). cbn [switch].
    split; [discriminate | ].
    intros [[H _]|[[H _]|[[H _]|[[H _]|[H _]]]]]; contradiction. }
  split; [exact Hiff | ].
  intros t. apply not_true_is_false. intros H. apply Hiff in H.
  unfold permittedEdge in H. cbn [In] in H.
  repeat match goal with
         | H : _ \/ _ |- _ => destruct H
         | H : _ /\ _ |- _ => destruct H
         | H : False |- _ => contradiction
         | H : _ = "deleted" |- _ => discriminate H
         end.
Qed.

(** ** Running routines *)

Section RunFacts.
Context {W : Type} (handle : forall e : event, W -> resp e * W).

Lemma run_Vis {R} (e : event) (k : resp e -> prog R) (w : W) (x : resp e) (w' : W) :
  handle e w = (x, w') ->
  run handle (Vis e k) w = after e (run handle (k x) w').
Proof. intros H. cbn [run]. now rewrite H. Qed.

Lemma run_bind {A B} (p : prog A) (f : A -> prog B) (w : W) :
  run handle (bind p f) w =
  mkOutcome (value (run handle (f (value (run handle p w))) (world (run handle p w))))
            (world (run handle (f (value (run handle p w))) (world (run handle p w))))
            (trace (run handle p w)
             ++ trace (run handle (f (value (run handle p w))) (world (run handle p w)))).
Proof.
  revert w. induction p as [a | e k IH]; intros w.
  - cbn. now destruct (run handle (f a) w).
  - cbn [bind run]. rewrite IH. reflexivity.
Qed.

(** The webhooks are posted to in order, whatever the answers. *)
Lemma trace_post_all (hooks : list Webhook.t) (payload : WebhookPayload.t) (w : W) :
trace (run handle
         (forEach hooks (fun hook => call (PostWebhook (Webhook.URL hook) payload))) w)
= map (fun hook => PostWebhook (Webhook.URL hook) payload) hooks.
Proof.
revert w. induction hooks as [| a l IH]; intros w; [reflexivity | ].
cbn [forEach]. rewrite run_bind. cbn [trace]. cbn [call bind run after trace value world].
cbn [app map]. f_equal. apply IH.
Qed.

(** [notify] reads the clock, enumerates the webhooks and posts to each
  the payload of type [TypeRing]. *)
Lemma trace_notify (g : InstallationGroup.t) (newState oldState : string) (w : W) :
let now := fst (handle TimeNowUnixNano w) in
let w1 := snd (handle TimeNowUnixNano w) in
let payload :=
  WebhookPayload.mk TypeRing (InstallationGroup.ID g) newState oldState now in
trace (run handle (notify g newState oldState) w) =
TimeNowUnixNano :: GetWebhooks ::
  match fst (handle GetWebhooks w1) with
  | Ok hooks => map (fun hook => PostWebhook (Webhook.URL hook) payload) hooks
  | Err _ => []
  end.
Proof.
intros now w1 payload. unfold notify, SendToAllWebhooks.
cbn [bind call run after trace]. fold now. fold w1. fold payload.
do 2 f_equal.
destruct (fst (handle GetWebhooks w1)) as [hooks | msg]; [| reflexivity].
rewrite !run_bind. cbn [trace run]. rewrite !app_nil_r. apply trace_post_all.
Qed.
End RunFacts.

(** ** The transition of an installation group *)

Section Transitions.
Context {W : Type} (handle : forall e : event, W -> resp e * W).

Lemma transition_pending (g : InstallationGroup.t) :
  InstallationGroup.State g = "release-pending" ->
  transitionInstallationGroup g = checkInstallationGroupPending g.
Proof. intros H. unfold transitionInstallationGroup. now rewrite H. Qed.

Lemma transition_requested (g : InstallationGroup.t) :
  InstallationGroup.State g = "release-requested" ->
  transitionInstallationGroup g = releaseInstallationGroup g.
Proof. intros H. unfold transitionInstallationGroup. now rewrite H. Qed.

Lemma transition_soaking (g : InstallationGroup.t) :
  InstallationGroup.State g = "soaking-requested" ->
  transitionInstallationGroup g = soakInstallationGroup g.
Proof. intros H. unfold transitionInstallationGroup. now rewrite H. Qed.

Lemma transition_default (g : InstallationGroup.t) :
  InstallationGroup.State g <> "release-pending" ->
  InstallationGroup.State g <> "release-requested" ->
  InstallationGroup.State g <> "soaking-requested" ->
  transitionInstallationGroup g = Ret (InstallationGroup.State g).
Proof.
  intros H1 H2 H3. unfold transitionInstallationGroup.
  rewrite !switch_miss by assumption. reflexivity.
Qed.

(** C2: the next state of an installation group in [release-pending],
    from what the store answers about its parent ring, the locked
    installation groups and those in [release-in-progress]. *)
Theorem checkInstallationGroupPending_next
    (w : W) (g : InstallationGroup.t) (ring : Ring.t) (w1 : W) :
  InstallationGroup.State g = "release-pending" ->
  handle (GetRingFromInstallationGroupID (InstallationGroup.ID g)) w = (Ok ring, w1) ->
  let next := value (run handle (transitionInstallationGroup g) w) in
  (Ring.State ring = "release-failed" -> next = "release-failed") /\
  (Ring.State ring <> "release-failed" ->
   Ring.State ring <> "release-requested" ->
   Ring.State ring <> "release-in-progress" ->
   next = "release-pending") /\
  (Ring.State ring = "release-requested" \/ Ring.State ring = "release-in-progress" ->
   forall locked w2 inProgress w3,
     handle GetInstallationGroupsLocked w1 = (Ok locked, w2) ->
     handle GetInstallationGroupsReleaseInProgress w2 = (Ok inProgress, w3) ->
     (1 < length locked \/ 0 < length inProgress -> next = "release-pending") /\
     (length locked <= 1 -> length inProgress = 0 -> next = "release-requested")).
Proof.
  intros Hst Hring next. subst next.
  rewrite (transition_pending g Hst). unfold checkInstallationGroupPending.
  cbn [bind call]. rewrite (run_Vis handle _ _ _ _ _ Hring). cbn [value after].
  split; [| split].
  - intros Hf. rewrite Hf. reflexivity.
  - intros Hf Hr Hp.
    apply String.eqb_neq in Hf, Hr, Hp.
    unfold RingStateReleaseFailed, RingStateReleaseRequested, RingStateReleaseInProgress.
    rewrite Hf, Hr, Hp. reflexivity.
  - intros Hrp locked w2 inProgress w3 Hl Hi.
    assert (Hgo : (String.eqb (Ring.State ring) RingStateReleaseFailed = false) /\
                  (negb (String.eqb (Ring.State ring) RingStateReleaseRequested)
                   && negb (String.eqb (Ring.State ring) RingStateReleaseInProgress)
                   = false)).
    { destruct Hrp as [-> | ->]; split; reflexivity. }
    destruct Hgo as [-> ->].
    cbn [bind]. rewrite (run_Vis handle _ _ _ _ _ Hl). cbn [value after bind].
    rewrite (run_Vis handle _ _ _ _ _ Hi). cbn [value after].
    split.
    + intros Hbusy.
      assert (Hb : (1 <? length locked)%nat || (0 <? length inProgress)%nat = true).
      { apply orb_true_iff. destruct Hbusy as [H | H]; [left | right];
          now apply Nat.ltb_lt. }
      rewrite Hb. reflexivity.
    + intros Hl1 Hi0.
      assert (Hb : (1 <? length locked)%nat || (0 <? length inProgress)%nat = false).
      { apply orb_false_iff. split; apply Nat.ltb_ge; lia. }
      rewrite Hb. reflexivity.
Qed.
End Transitions.

(** C2 on the small system: the ring failed; the ring is stable; both
    groups are locked; only the caller is. *)
Lemma checkInstallationGroupPending_next_witness :
  value (run scripted (transitionInstallationGroup groupA)
             (store1WithRing "release-failed", [])) = "release-failed" /\
  value (run scripted (transitionInstallationGroup groupA)
             (store1WithRing "stable", [])) = "release-pending" /\
  value (run scripted (transitionInstallationGroup groupA)
             (store1Locked, [])) = "release-pending" /\
  value (run scripted (transitionInstallationGroup groupA)
             (store1, [])) = "release-requested".
Proof.
  repeat apply conj.
  - destruct (checkInstallationGroupPending_next scripted
                (store1WithRing "release-failed", []) groupA
                (Ring.withState "release-failed" ring1)
                (store1WithRing "release-failed", []) eq_refl eq_refl) as (H & _ & _).
    exact (H eq_refl).
  - destruct (checkInstallationGroupPending_next scripted
                (store1WithRing "stable", []) groupA
                (Ring.withState "stable" ring1)
                (store1WithRing "stable", []) eq_refl eq_refl) as (_ & H & _).
    apply H; discriminate.
  - destruct (checkInstallationGroupPending_next scripted
                (store1Locked, []) groupA ring1 (store1Locked, []) eq_refl eq_refl)
      as (_ & _ & H).
    destruct (H (or_introl eq_refl) (installationGroups store1Locked) (store1Locked, [])
                [] (store1Locked, []) eq_refl eq_refl) as [Hbusy _].
    apply Hbusy. left. cbn. lia.
  - destruct (checkInstallationGroupPending_next scripted
                (store1, []) groupA ring1 (store1, []) eq_refl eq_refl)
      as (_ & _ & H).
    destruct (H (or_introl eq_refl) [] (store1, []) [] (store1, []) eq_refl eq_refl)
      as [_ Hfree].
    apply Hfree; cbn; lia.
Defined.

Section Release.
Context {W : Type} (handle : forall e : event, W -> resp e * W).

(** C5: an installation group in [release-requested] is released with the
    image and version of the parent ring's desired release; the next
    state is [release-failed] on a provisioner error, [stable] for a
    forced release and [soaking-requested] otherwise; persisting the move
    from [release-requested] to [soaking-requested] or [stable] stamps
    [ReleaseAt] with the current time. *)
Theorem releaseInstallationGroup_next
    (w : W) (g : InstallationGroup.t) (ring : Ring.t) (w1 : W)
    (release : RingRelease.t) (w2 : W) :
  InstallationGroup.State g = "release-requested" ->
  handle (GetRingFromInstallationGroupID (InstallationGroup.ID g)) w = (Ok ring, w1) ->
  handle (GetRingRelease (Ring.DesiredReleaseID ring)) w1 = (Ok release, w2) ->
  let o := run handle (transitionInstallationGroup g) w in
  let provision :=
    ReleaseInstallationGroup g (RingRelease.Image release) (RingRelease.Version release) in
  trace o = [ GetRingFromInstallationGroupID (InstallationGroup.ID g);
              GetRingRelease (Ring.DesiredReleaseID ring);
              provision ] /\
  (forall msg, fst (handle provision w2) = Err msg -> value o = "release-failed") /\
  (forall u, fst (handle provision w2) = Ok u ->
             value o = if RingRelease.Force release then "stable"
                       else "soaking-requested") /\
  (forall (w' : W) (g' : InstallationGroup.t) (newState : string),
      InstallationGroup.State g' = "release-requested" ->
      newState = "soaking-requested" \/ newState = "stable" ->
      exists rest,
        trace (run handle (persist g' newState) w') =
        TimeNowUnixNano
          :: UpdateInstallationGroup
               (released (fst (handle TimeNowUnixNano w')) newState g')
          :: rest).
Proof.
  intros Hst Hring Hrel o provision. subst o.
  rewrite (transition_requested g Hst). unfold releaseInstallationGroup.
  cbn [bind call]. rewrite (run_Vis handle _ _ _ _ _ Hring). cbn [bind].
  rewrite (run_Vis handle _ _ _ _ _ Hrel). cbn [bind run].
  fold provision.
  repeat split.
  - cbn [trace after]. destruct (fst (handle provision w2)) as [u | msg]; cbn [bind run trace];
      [destruct (RingRelease.Force release) |]; reflexivity.
  - intros msg ->. reflexivity.
  - intros u ->. cbn [bind]. destruct (RingRelease.Force release); reflexivity.
  - intros w' g' newState Hg' Hnew. unfold persist. rewrite Hg'.
    destruct Hnew as [-> | ->]; cbn -[run commit]; unfold commit;
      cbn [bind call run after trace]; eexists; reflexivity.
Qed.
End Release.

(** C5 on the small system: group a, in [release-requested], is released
    with the image and version of [release-1]. *)
Lemma releaseInstallationGroup_next_witness :
  let g := InstallationGroup.withState "release-requested" groupA in
  trace (run scripted (transitionInstallationGroup g) (store1, []))
  = [ GetRingFromInstallationGroupID "ig-a"; GetRingRelease "release-1";
      ReleaseInstallationGroup g "elrond/app" "1.2.3" ] /\
  value (run scripted (transitionInstallationGroup g) (store1, [])) = "soaking-requested" /\
  value (run scripted (transitionInstallationGroup g)
             (store1, [calm; calm; provisionerFails])) = "release-failed" /\
  exists rest,
    trace (run scripted (persist g "soaking-requested") (store1, [clockAt 5]))
    = TimeNowUnixNano
        :: UpdateInstallationGroup (released 5000000000 "soaking-requested" g) :: rest.
Proof.
  intros g.
  destruct (releaseInstallationGroup_next scripted (store1, []) g ring1 (store1, [])
              release1 (store1, []) eq_refl eq_refl eq_refl) as (Ht & _ & Hok & Hat).
  destruct (releaseInstallationGroup_next scripted
              (store1, [calm; calm; provisionerFails]) g ring1
              (store1, [calm; provisionerFails])
              release1 (store1, [provisionerFails]) eq_refl eq_refl eq_refl)
    as (_ & Herr & _ & _).
  repeat apply conj.
  - exact Ht.
  - exact (Hok tt eq_refl).
  - exact (Herr "provisioner error" eq_refl).
  - exact (Hat (store1, [clockAt 5]) g "soaking-requested" eq_refl (or_introl eq_refl)).
Defined.

Section Soak.
Context {W : Type} (handle : forall e : event, W -> resp e * W).

Lemma wrap64_small (z : Z) : (- 2 ^ 63 <= z < 2 ^ 63)%Z -> wrap64 z = z.
Proof. intros H. unfold wrap64. rewrite Z.mod_small; lia. Qed.

(** C7: an installation group in [soaking-requested] stays there, and the
    provisioner is not called, while the whole seconds passed since
    [ReleaseAt] are fewer than [SoakTime]; from then on it is soaked, and
    becomes [stable], or [soaking-failed] on a provisioner error. *)
Theorem soakInstallationGroup_next (w : W) (g : InstallationGroup.t) :
  InstallationGroup.State g = "soaking-requested" ->
  let now := fst (handle TimeNowUnixNano w) in
  let w1 := snd (handle TimeNowUnixNano w) in
  let o := run handle (transitionInstallationGroup g) w in
  ((- 2 ^ 63 <= now - InstallationGroup.ReleaseAt g < 2 ^ 63)%Z ->
   timePassed now g = ((now - InstallationGroup.ReleaseAt g) ÷ 1000000000)%Z) /\
  ((timePassed now g < InstallationGroup.SoakTime g)%Z ->
   value o = InstallationGroup.State g /\ trace o = [TimeNowUnixNano]) /\
  ((InstallationGroup.SoakTime g <= timePassed now g)%Z ->
   trace o = [TimeNowUnixNano; SoakInstallationGroup g] /\
   (forall u, fst (handle (SoakInstallationGroup g) w1) = Ok u -> value o = "stable") /\
   (forall msg, fst (handle (SoakInstallationGroup g) w1) = Err msg ->
                value o = "soaking-failed")).
Proof.
  intros Hst now w1 o. subst o.
  rewrite (transition_soaking g Hst). unfold soakInstallationGroup.
  cbn [bind call run]. fold now. fold w1.
  split; [| split].
  - intros Hrange. unfold timePassed. now rewrite wrap64_small.
  - intros Hlt. apply Z.ltb_lt in Hlt. rewrite Hlt. rewrite Hst. split; reflexivity.
  - intros Hge. apply Z.ltb_ge in Hge. rewrite Hge. cbn [bind run].
    repeat split.
    + cbn [trace after].
      destruct (fst (handle (SoakInstallationGroup g) w1)); reflexivity.
    + intros u ->. reflexivity.
    + intros msg ->. reflexivity.
Qed.
End Soak.

(** C7 on a group released at time 0 that soaks for 60 seconds: after 30
    seconds it stays as it is; after 61 seconds it is soaked. *)
Lemma soakInstallationGroup_next_witness :
  let g := InstallationGroup.withState "soaking-requested" groupA in
  (value (run scripted (transitionInstallationGroup g) (store1, [clockAt 30]))
   = "soaking-requested" /\
   trace (run scripted (transitionInstallationGroup g) (store1, [clockAt 30]))
   = [TimeNowUnixNano]) /\
  (trace (run scripted (transitionInstallationGroup g) (store1, [clockAt 61]))
   = [TimeNowUnixNano; SoakInstallationGroup g] /\
   value (run scripted (transitionInstallationGroup g) (store1, [clockAt 61]))
   = "stable" /\
   value (run scripted (transitionInstallationGroup g)
              (store1, [clockAt 61; provisionerFails]))
   = "soaking-failed") /\
  timePassed 61000000000 g = 61%Z.
Proof.
  intros g.
  destruct (soakInstallationGroup_next scripted (store1, [clockAt 30]) g eq_refl)
    as (_ & Hearly & _).
  destruct (soakInstallationGroup_next scripted (store1, [clockAt 61]) g eq_refl)
    as (Hquot & _ & Hlate).
  destruct (soakInstallationGroup_next scripted
              (store1, [clockAt 61; provisionerFails]) g eq_refl)
    as (_ & _ & Hfail).
  assert (Hle : (InstallationGroup.SoakTime g <= timePassed (61 * Second) g)%Z)
    by (vm_compute; discriminate).
  destruct (Hearly eq_refl) as [Hsame Hnone].
  destruct (Hlate Hle) as (Hsoak & Hstable & _).
  destruct (Hfail Hle) as (_ & _ & Hfailed).
  repeat apply conj.
  - exact Hsame.
  - exact Hnone.
  - exact Hsoak.
  - exact (Hstable tt eq_refl).
  - exact (Hfailed "provisioner error" eq_refl).
  - apply Hquot. cbn. lia.
Defined.


(** ** The logic of [safe] *)

Section SafeFacts.
Context (pre : event -> Prop) (post : forall e : event, resp e -> Prop).

Lemma safe_weaken {R} (Q Q' : R -> Prop) (p : prog R) :
  (forall r, Q r -> Q' r) -> safe pre post Q p -> safe pre post Q' p.
Proof.
  intros HQ. induction p as [r | e k IH]; cbn [safe].
  - apply HQ.
  - intros [Hpre Hk]. split; [exact Hpre | ]. intros x Hx. apply IH, Hk, Hx.
Qed.

Lemma safe_bind {A B} (Q : A -> Prop) (Q' : B -> Prop) (p : prog A) (f : A -> prog B) :
  safe pre post Q p ->
  (forall a, Q a -> safe pre post Q' (f a)) ->
  safe pre post Q' (bind p f).
Proof.
  intros Hp Hf. induction p as [r | e k IH]; cbn [safe bind] in *.
  - apply Hf, Hp.
  - destruct Hp as [Hpre Hk]. split; [exact Hpre | ].
    intros x Hx. apply IH, Hk, Hx.
Qed.

Lemma safe_forEach {A} (P : A -> Prop) (l : list A) (f : A -> prog unit) :
  Forall P l ->
  (forall a, P a -> safe pre post (fun _ => True) (f a)) ->
  safe pre post (fun _ => True) (forEach l f).
Proof.
  intros Hl Hf. induction Hl as [| a l Ha Hl IH]; cbn [forEach]; [exact I | ].
  apply safe_bind with (Q := fun _ => True); [apply Hf, Ha | intros _ _; exact IH].
Qed.

(** Against an implementation whose answers are within [post], a safe
    routine makes allowed calls only and returns a value in [Q]. *)
Lemma safe_run {W R} (handle : forall e : event, W -> resp e * W)
      (Q : R -> Prop) (p : prog R) :
  (forall e w, post e (fst (handle e w))) ->
  safe pre post Q p ->
  forall w, Forall pre (trace (run handle p w)) /\ Q (value (run handle p w)).
Proof.
  intros Hh. induction p as [r | e k IH]; cbn [safe run]; intros Hp w.
  - split; [constructor | exact Hp].
  - destruct Hp as [Hpre Hk].
    destruct (IH _ (Hk _ (Hh e w)) (snd (handle e w))) as [Ht Hv].
    split; [constructor; assumption | exact Hv].
Qed.
End SafeFacts.

(** ** The set of ring states pending work *)

(** C8, as the code has it: the ring states pending work are the five
    request states; [release-in-progress] is not one of them, and the
    store's discovery of rings returns the rings in one of the five. *)
Theorem AllRingStatesPendingWork_exactly :
  (forall s : string,
      In s AllRingStatesPendingWork <->
      s = "creation-requested" \/ s = "release-requested" \/
      s = "soaking-requested" \/ s = "release-rollback-requested" \/
      s = "deletion-requested") /\
  ~ In "release-in-progress" AllRingStatesPendingWork /\
  (forall (st : Store) (provisionerFault : bool) (clock : Z),
      exists found,
        fst (storeCall (mkOracle false provisionerFault clock) GetRingsPendingWork st)
        = Ok found /\
        forall r : Ring.t,
          In r found <-> In r (rings st) /\ In (Ring.State r) AllRingStatesPendingWork).
Proof.
  split; [| split].
  - intros s. unfold AllRingStatesPendingWork. cbn [In].
    unfold RingStateCreationRequested, RingStateReleaseRequested,
      RingStateSoakingRequested, RingStateReleaseRollbackRequested,
      RingStateDeletionRequested.
    intuition congruence.
  - cbn. intuition discriminate.
  - intros st pf c. eexists. split; [reflexivity | ].
    intros r. rewrite filter_In. cbv beta. rewrite oneOf_In. reflexivity.
Qed.

(** C8 as stated fails: the state [release-in-progress] of the
    specification's set is not in [AllRingStatesPendingWork]. *)
Lemma AllRingStatesPendingWork_not_spec :
  ~ (forall s : string,
        In s AllRingStatesPendingWork <-> In s specRingStatesPendingWork).
Proof.
  intros H. specialize (H "release-in-progress").
  destruct H as [_ H].
  assert (Hin : In "release-in-progress" AllRingStatesPendingWork).
  { apply H. cbn. tauto. }
  cbn in Hin. intuition discriminate.
Qed.

(** ** What every run of [Supervise] calls *)

Section SuperviseCalls.
Context (pre : event -> Prop) (post : forall e : event, resp e -> Prop).
Hypothesis Hb : benign pre.

Lemma safe_notify g n o : safe pre post (fun _ => True) (notify g n o).
Proof.
  unfold notify, SendToAllWebhooks. cbn [bind call safe].
  split; [apply (Hb TimeNowUnixNano) | intros now _].
  split; [apply (Hb GetWebhooks) | intros [hooks | msg] _]; [| exact I].
  apply safe_bind with (Q := fun _ => True); [| intros; exact I].
  apply safe_bind with (Q := fun _ => True); [| intros; exact I].
  apply safe_forEach with (P := fun _ => True).
  - apply Forall_forall. trivial.
  - intros hook _. cbn. split; [apply (Hb (PostWebhook _ _)) | trivial].
Qed.

Lemma safe_commit g n o :
  pre (UpdateInstallationGroup g) -> safe pre post (fun _ => True) (commit g n o).
Proof.
  intros Hup. unfold commit. cbn [bind call safe].
  split; [exact Hup | intros [u | msg] _]; [| exact I].
  destruct (_ || _); [| apply safe_notify].
  cbn [bind call safe].
  split; [apply (Hb GetRingsPendingWork) | intros [rs | msg] _]; [| exact I].
  cbn [bind call safe].
  split; [apply (Hb (UpdateRings _)) | intros [u' | msg] _]; [| exact I].
  apply safe_notify.
Qed.

(** [persist] writes the row it is given, with the new state. *)
Lemma safe_persist g newState :
  (forall g', InstallationGroup.State g' = newState ->
              InstallationGroup.ID g' = InstallationGroup.ID g ->
              pre (UpdateInstallationGroup g')) ->
  safe pre post (fun _ => True) (persist g newState).
Proof.
  intros Hup. unfold persist.
  destruct (String.eqb (InstallationGroup.State g) newState); [exact I | ].
  destruct (_ && _).
  - cbn [bind call safe]. split; [apply (Hb TimeNowUnixNano) | intros now _].
    apply safe_commit, Hup; reflexivity.
  - apply safe_commit, Hup; reflexivity.
Qed.

Lemma safe_Unlock id i : safe pre post (fun _ => True) (Unlock id i).
Proof. cbn. split; [apply (Hb (UnlockRingInstallationGroup _ _ _)) | trivial]. Qed.

Lemma safe_TryLock id i : safe pre post (fun _ => True) (TryLock id i).
Proof.
  cbn. split; [apply (Hb (LockRingInstallationGroup _ _)) | ].
  intros [b | msg] _; exact I.
Qed.

(** [Supervise] is safe as soon as its body under the lock is. *)
Lemma safe_Supervise i g :
  safe pre post (fun _ => True) (superviseLocked g) ->
  safe pre post (fun _ => True) (Supervise i g).
Proof.
  intros Hbody. unfold Supervise.
  apply safe_bind with (Q := fun _ => True); [apply safe_TryLock | ].
  intros [|] _; [| exact I].
  apply safe_bind with (Q := fun _ => True); [exact Hbody | ].
  intros _ _. apply safe_Unlock.
Qed.
End SuperviseCalls.

Lemma benign_quiet (s : string) : benign (quiet s).
Proof. intros []; exact I. Qed.

Lemma quiet_superviseLocked (g : InstallationGroup.t) :
  InstallationGroup.State g <> "release-pending" ->
  InstallationGroup.State g <> "release-requested" ->
  InstallationGroup.State g <> "soaking-requested" ->
  safe (quiet (InstallationGroup.State g)) anyAnswer (fun _ => True) (superviseLocked g).
Proof.
  intros H1 H2 H3. unfold superviseLocked. cbn [bind call safe].
  split; [exact I | intros [g1 | msg] _]; [| exact I].
  destruct (String.eqb_spec (InstallationGroup.State g1) (InstallationGroup.State g))
    as [E | N]; cbn [negb]; [| exact I].
  rewrite transition_default by (rewrite E; assumption).
  cbn [bind call safe].
  split; [exact I | intros [g2 | msg] _]; [| exact I].
  apply safe_persist; [apply benign_quiet | ].
  intros g' Hs _. cbn. congruence.
Qed.

Lemma groupStates_relock p by_ at_ l :
  map InstallationGroup.State (updateWhere p (withLock by_ at_) l)
  = map InstallationGroup.State l.
Proof.
  unfold updateWhere. rewrite map_map. apply map_ext. intros g.
  destruct (p g); reflexivity.
Qed.

(** Locking and unlocking leave the states of the rows as they are. *)
Lemma groupStates_lock o id i st :
  groupStates (snd (storeCall o (LockRingInstallationGroup id i) st)) = groupStates st.
Proof.
  cbn [storeCall]. destruct (storeFault o); [reflexivity | ].
  destruct (find _ _) as [g |]; [| reflexivity].
  destruct (isLocked g); [reflexivity | ].
  apply groupStates_relock.
Qed.

Lemma groupStates_unlock o id i f st :
  groupStates (snd (storeCall o (UnlockRingInstallationGroup id i f) st)) = groupStates st.
Proof.
  cbn [storeCall]. destruct (storeFault o); [reflexivity | ].
  destruct (find _ _) as [g |]; [| reflexivity].
  destruct (_ || _); [| reflexivity].
  apply groupStates_relock.
Qed.

Lemma scripted_read id st script :
  scripted (GetInstallationGroupByID id) (st, script)
  = (if storeFault (hd calm script) then Err transient
     else notFound (find (hasID id) (installationGroups st)),
     (st, tl script)).
Proof. unfold scripted. cbn. destruct (storeFault _); reflexivity. Qed.

(** On the reference store, the body of [Supervise] reads such a group
    twice and writes nothing. *)
Lemma superviseLocked_other (g : InstallationGroup.t) (st : Store) (script : list oracle) :
  InstallationGroup.State g <> "release-pending" ->
  InstallationGroup.State g <> "release-requested" ->
  InstallationGroup.State g <> "soaking-requested" ->
  exists rest,
    world (run scripted (superviseLocked g) (st, script)) = (st, rest) /\
    filter isUpdateInstallationGroup (trace (run scripted (superviseLocked g) (st, script)))
    = [].
Proof.
  intros H1 H2 H3. unfold superviseLocked. cbn [bind call].
  rewrite (run_Vis scripted _ _ _ _ _ (scripted_read _ _ _)).
  destruct (storeFault (hd calm script)); [eexists; split; reflexivity | ].
  destruct (find (hasID (InstallationGroup.ID g)) (installationGroups st)) as [g1 |] eqn:Hf;
    cbn [notFound]; [| eexists; split; reflexivity].
  destruct (String.eqb_spec (InstallationGroup.State g1) (InstallationGroup.State g))
    as [E | N]; cbn [negb]; [| eexists; split; reflexivity].
  rewrite transition_default by (rewrite E; assumption).
  cbn [bind]. rewrite (run_Vis scripted _ _ _ _ _ (scripted_read _ _ _)).
  destruct (storeFault (hd calm (tl script))); [eexists; split; reflexivity | ].
  assert (Hid : InstallationGroup.ID g1 = InstallationGroup.ID g).
  { apply find_some in Hf. destruct Hf as [_ Hid]. now apply String.eqb_eq in Hid. }
  rewrite Hid, Hf. cbn [notFound]. unfold persist. rewrite String.eqb_refl.
  eexists; split; reflexivity.
Qed.

Lemma Supervise_other (i : string) (g : InstallationGroup.t) (st : Store)
      (script : list oracle) :
  InstallationGroup.State g <> "release-pending" ->
  InstallationGroup.State g <> "release-requested" ->
  InstallationGroup.State g <> "soaking-requested" ->
  let o := run scripted (Supervise i g) (st, script) in
  groupStates (fst (world o)) = groupStates st /\
  filter isUpdateInstallationGroup (trace o) = [].
Proof.
  intros H1 H2 H3 o. subst o. unfold Supervise, TryLock. cbn [bind call run].
  set (w1 := snd (scripted (LockRingInstallationGroup (InstallationGroup.ID g) i) (st, script))).
  assert (Hw1 : groupStates (fst w1) = groupStates st).
  { subst w1. unfold scripted. cbn [fst snd]. apply groupStates_lock. }
  destruct (fst (scripted _ _)) as [[|] | msg]; cbn [bind run world after trace];
    try (split; [exact Hw1 | reflexivity]).
  rewrite run_bind. cbn [world trace].
  destruct w1 as [st1 script1]. cbn [fst] in Hw1.
  destruct (superviseLocked_other g st1 script1 H1 H2 H3) as [rest [Hw Ht]].
  rewrite Hw. cbn [Unlock bind call run world trace after fst snd filter isUpdateInstallationGroup].
  split.
  - unfold scripted. cbn [fst snd]. rewrite groupStates_unlock. exact Hw1.
  - rewrite filter_app, Ht. reflexivity.
Qed.

(** C10: for an installation group in a state other than
    [release-pending], [release-requested] and [soaking-requested], the
    transition returns the state as it is and makes no call at all;
    [Supervise], against any store and provisioner, calls no provisioner
    and writes no other state for it; and on the reference store, whatever
    the errors, it writes no installation group and leaves all their
    states as they are. *)
Theorem transitionInstallationGroup_other (g : InstallationGroup.t) :
  InstallationGroup.State g <> "release-pending" ->
  InstallationGroup.State g <> "release-requested" ->
  InstallationGroup.State g <> "soaking-requested" ->
  transitionInstallationGroup g = Ret (InstallationGroup.State g) /\
  (forall (W : Type) (handle : forall e : event, W -> resp e * W) (w : W)
          (instanceID : string),
      value (run handle (transitionInstallationGroup g) w) = InstallationGroup.State g /\
      trace (run handle (transitionInstallationGroup g) w) = [] /\
      Forall (quiet (InstallationGroup.State g))
             (trace (run handle (Supervise instanceID g) w))) /\
  (forall (instanceID : string) (st : Store) (script : list oracle),
      let o := run scripted (Supervise instanceID g) (st, script) in
      groupStates (fst (world o)) = groupStates st /\
      filter isUpdateInstallationGroup (trace o) = []).
Proof.
  intros H1 H2 H3.
  pose proof (transition_default g H1 H2 H3) as Heq.
  split; [exact Heq | split].
  - intros W handle w i. rewrite Heq. cbn [run value trace].
    repeat split.
    apply (safe_run (quiet (InstallationGroup.State g)) anyAnswer handle (fun _ => True)).
    + intros e w'. exact I.
    + apply safe_Supervise; [apply benign_quiet | ].
      apply quiet_superviseLocked; assumption.
  - intros i st script. apply Supervise_other; assumption.
Qed.

(** C10 at an installation group in [release-in-progress]. *)
Lemma transitionInstallationGroup_other_witness :
  let g := InstallationGroup.withState "release-in-progress" groupA in
  let st := setInstallationGroups [g; groupB] store1 in
  transitionInstallationGroup g = Ret "release-in-progress" /\
  Forall (quiet "release-in-progress")
         (trace (run scripted (Supervise "supervisor-1" g) (st, []))) /\
  groupStates (fst (world (run scripted (Supervise "supervisor-1" g) (st, []))))
  = ["release-in-progress"; "release-pending"].
Proof.
  intros g st.
  destruct (transitionInstallationGroup_other g) as (Heq & Hall & Hstore);
    [discriminate | discriminate | discriminate | ].
  split; [exact Heq | split].
  - apply (Hall _ scripted (st, []) "supervisor-1").
  - exact (proj1 (Hstore "supervisor-1" st [])).
Defined.

(** ** The failure cascade *)

Section Cascade.
Context {W : Type} (handle : forall e : event, W -> resp e * W).

Lemma persist_failure (g : InstallationGroup.t) (newState : string) :
  InstallationGroup.State g <> newState ->
  newState = "release-failed" \/ newState = "soaking-failed" ->
  persist g newState =
  commit (InstallationGroup.withState newState g) newState (InstallationGroup.State g).
Proof.
  intros Hne Hnew. unfold persist.
  apply String.eqb_neq in Hne. rewrite Hne.
  replace (String.eqb newState InstallationGroupReleaseSoakingRequested
           || String.eqb newState InstallationGroupStable) with false
    by (destruct Hnew as [-> | ->]; reflexivity).
  now rewrite andb_false_r.
Qed.

Lemma no_UpdateRings_in_notify (g : InstallationGroup.t) (n o : string) (w : W) :
  filter isUpdateRings (trace (run handle (notify g n o) w)) = [].
Proof.
  rewrite trace_notify. cbn [filter isUpdateRings].
  destruct (fst (handle GetWebhooks _)) as [hooks | msg]; [| reflexivity].
  induction hooks as [| a l IH]; [reflexivity | exact IH].
Qed.

(** C6: once an installation group is written in [release-failed] or
    [soaking-failed], the supervisor fetches the rings pending work and
    issues one bulk update that carries every one of them, each in
    [release-failed]. *)
Theorem failure_cascade
    (w : W) (g : InstallationGroup.t) (newState : string) (w1 : W) :
  InstallationGroup.State g <> newState ->
  newState = "release-failed" \/ newState = "soaking-failed" ->
  handle (UpdateInstallationGroup (InstallationGroup.withState newState g)) w
  = (Ok tt, w1) ->
  let o := run handle (persist g newState) w in
  (exists rest,
      trace o = UpdateInstallationGroup (InstallationGroup.withState newState g)
                  :: GetRingsPendingWork :: rest) /\
  (forall rings w2,
      handle GetRingsPendingWork w1 = (Ok rings, w2) ->
      let failed := map (Ring.withState "release-failed") rings in
      map Ring.ID failed = map Ring.ID rings /\
      Forall (fun r => Ring.State r = "release-failed") failed /\
      filter isUpdateRings (trace o) = [UpdateRings failed]).
Proof.
  intros Hne Hnew Hup o. subst o.
  rewrite (persist_failure g newState Hne Hnew). unfold commit.
  cbn [bind call]. rewrite (run_Vis handle _ _ _ _ _ Hup).
  replace (String.eqb newState InstallationGroupReleaseFailed
           || String.eqb newState InstallationGroupReleaseSoakingFailed) with true
    by (destruct Hnew as [-> | ->]; reflexivity).
  cbn [bind run after trace]. split.
  - eexists. reflexivity.
  - intros rings w2 Hrings. rewrite Hrings. cbn [fst snd].
    repeat split.
    + rewrite map_map. reflexivity.
    + apply Forall_forall. intros r Hr.
      apply in_map_iff in Hr. destruct Hr as [r0 [<- _]]. reflexivity.
    + cbn [bind run after trace filter isUpdateRings]. f_equal.
      destruct (fst (handle (UpdateRings _) w2)) as [u | msg]; [| reflexivity].
      apply no_UpdateRings_in_notify.
Qed.
End Cascade.

(** C6 on the system of three rings: group a, of [ring1], fails its
    release; the bulk update carries [ring1] and [ring2], the two rings
    pending work, both in [release-failed]; [ring3] is left as it is. *)
Lemma failure_cascade_witness :
  let o := run scripted (persist groupA "release-failed") (store3, []) in
  ringOf store3 "ig-a" = Some ring1 /\
  filter isUpdateRings (trace o)
  = [UpdateRings [Ring.withState "release-failed" ring1;
                  Ring.withState "release-failed" ring2]] /\
  map Ring.State (rings (fst (world o))) = ["release-failed"; "release-failed"; "stable"].
Proof.
  intros o.
  pose (w1 := snd (scripted (UpdateInstallationGroup
                               (InstallationGroup.withState "release-failed" groupA))
                            (store3, []))).
  pose proof (failure_cascade scripted (store3, []) groupA "release-failed" w1) as H.
  assert (Hne : InstallationGroup.State groupA <> "release-failed") by discriminate.
  assert (Hnew : "release-failed" = "release-failed" \/ "release-failed" = "soaking-failed")
    by (left; reflexivity).
  assert (Hup : scripted (UpdateInstallationGroup
                            (InstallationGroup.withState "release-failed" groupA))
                         (store3, []) = (Ok tt, w1)) by reflexivity.
  destruct (H Hne Hnew Hup) as [_ Hcascade].
  assert (Hrings : scripted GetRingsPendingWork w1 = (Ok [ring1; ring2], w1))
    by reflexivity.
  destruct (Hcascade [ring1; ring2] w1 Hrings) as [_ [_ Hf]].
  split; [reflexivity | split; [exact Hf | vm_compute; reflexivity]].
Defined.

(** ** Webhooks of the installation group supervisor *)

(** C9, the code at a transition of group a from [release-pending] to
    [release-requested]: the change is persisted and the one webhook is
    posted a payload whose type is [TypeRing], that is ["ring"] and not
    ["installation-group"]; when the fetch of the failure cascade fails,
    the failed state is persisted and no webhook is posted; and when the
    new state is the current one, nothing is written or sent. *)
Theorem Supervise_webhook_payload :
  (let o := run scripted (Supervise "supervisor-1" groupA) (store1, []) in
   groupStates (fst (world o)) = ["release-requested"; "release-pending"] /\
   filter isPostWebhook (trace o) =
   [PostWebhook "https://hooks.example/elrond"
      (WebhookPayload.mk "ring" "ig-a" "release-requested" "release-pending" 0)] /\
   TypeRing <> "installation-group") /\
  (let o := run scripted (Supervise "supervisor-1" groupA)
                (store1, [calm; calm; storeFails; calm; calm; storeFails]) in
   groupStates (fst (world o)) = ["release-failed"; "release-pending"] /\
   filter isPostWebhook (trace o) = []) /\
  (forall g : InstallationGroup.t, persist g (InstallationGroup.State g) = Ret tt).
Proof.
  split; [split; [| split] | split; [split |]]; try (vm_compute; reflexivity).
  - discriminate.
  - intros g. unfold persist. now rewrite String.eqb_refl.
Qed.

(** ** Store errors *)

(** C3 as stated fails: group a is in [release-pending]; the store fails
    on the query for its parent ring, and the supervisor writes the group
    in [release-failed] (and the ring with it). *)
Lemma store_error_fails_installation_group :
  let script := [calm; calm; storeFails] in
  let o := run scripted (Supervise "supervisor-1" groupA) (store1, script) in
  InstallationGroup.State groupA = "release-pending" /\
  nth_error (trace o) 2 = Some (GetRingFromInstallationGroupID "ig-a") /\
  fst (storeCall storeFails (GetRingFromInstallationGroupID "ig-a") store1)
  = Err transient /\
  groupStates (fst (world o)) = ["release-failed"; "release-pending"] /\
  map Ring.State (rings (fst (world o))) = ["release-failed"].
Proof. repeat split; vm_compute; reflexivity. Qed.

Section StoreErrors.
Context {W : Type} (handle : forall e : event, W -> resp e * W).

Lemma run_superviseLocked_read
    (w : W) (g g1 : InstallationGroup.t) (w1 : W) :
  handle (GetInstallationGroupByID (InstallationGroup.ID g)) w = (Ok g1, w1) ->
  InstallationGroup.State g1 = InstallationGroup.State g ->
  trace (run handle (superviseLocked g) w) =
  GetInstallationGroupByID (InstallationGroup.ID g)
    :: trace (run handle
                (newState <- transitionInstallationGroup g1 ;;
                 r <- call (GetInstallationGroupByID (InstallationGroup.ID g1)) ;;
                 match r with
                 | Err _ => Ret tt
                 | Ok g2 => persist g2 newState
                 end) w1).
Proof.
  intros Hread Hsame. unfold superviseLocked. cbn [bind call].
  rewrite (run_Vis handle _ _ _ _ _ Hread). cbn [trace after]. f_equal.
  rewrite Hsame, String.eqb_refl. cbn [negb bind]. reflexivity.
Qed.

(** C3, as the code has it: a store error at discovery, or when the
    installation group is read again before or after its transition is
    computed, ends the work with no write; a store error on a query made
    while the transition of a [release-pending] or [release-requested]
    installation group is computed makes the next state
    [release-failed]. *)
Theorem store_errors :
  (forall (i : string) (w : W) msg w1,
      handle GetInstallationGroupsPendingWork w = (Err msg, w1) ->
      run handle (Do i) w = mkOutcome tt w1 [GetInstallationGroupsPendingWork]) /\
  (forall (i : string) (g : InstallationGroup.t) (w : W) w1 msg w2,
      handle (LockRingInstallationGroup (InstallationGroup.ID g) i) w = (Ok true, w1) ->
      handle (GetInstallationGroupByID (InstallationGroup.ID g)) w1 = (Err msg, w2) ->
      trace (run handle (Supervise i g) w) =
      [ LockRingInstallationGroup (InstallationGroup.ID g) i;
        GetInstallationGroupByID (InstallationGroup.ID g);
        UnlockRingInstallationGroup (InstallationGroup.ID g) i false ]) /\
  (forall (g g1 : InstallationGroup.t) (w : W) w1 msg w2,
      handle (GetInstallationGroupByID (InstallationGroup.ID g)) w = (Ok g1, w1) ->
      InstallationGroup.State g1 = InstallationGroup.State g ->
      let t := run handle (transitionInstallationGroup g1) w1 in
      handle (GetInstallationGroupByID (InstallationGroup.ID g1)) (world t)
      = (Err msg, w2) ->
      trace (run handle (superviseLocked g) w) =
      GetInstallationGroupByID (InstallationGroup.ID g)
        :: trace t ++ [GetInstallationGroupByID (InstallationGroup.ID g1)]) /\
  (forall (g : InstallationGroup.t) (w : W) msg w1,
      InstallationGroup.State g = "release-pending" \/
      InstallationGroup.State g = "release-requested" ->
      handle (GetRingFromInstallationGroupID (InstallationGroup.ID g)) w = (Err msg, w1) ->
      value (run handle (transitionInstallationGroup g) w) = "release-failed") /\
  (forall (g : InstallationGroup.t) (w : W) ring w1,
      InstallationGroup.State g = "release-pending" ->
      handle (GetRingFromInstallationGroupID (InstallationGroup.ID g)) w = (Ok ring, w1) ->
      Ring.State ring = "release-requested" \/ Ring.State ring = "release-in-progress" ->
      (forall msg w2,
          handle GetInstallationGroupsLocked w1 = (Err msg, w2) ->
          value (run handle (transitionInstallationGroup g) w) = "release-failed") /\
      (forall locked w2 msg w3,
          handle GetInstallationGroupsLocked w1 = (Ok locked, w2) ->
          handle GetInstallationGroupsReleaseInProgress w2 = (Err msg, w3) ->
          value (run handle (transitionInstallationGroup g) w) = "release-failed")) /\
  (forall (g : InstallationGroup.t) (w : W) ring w1 msg w2,
      InstallationGroup.State g = "release-requested" ->
      handle (GetRingFromInstallationGroupID (InstallationGroup.ID g)) w = (Ok ring, w1) ->
      handle (GetRingRelease (Ring.DesiredReleaseID ring)) w1 = (Err msg, w2) ->
      value (run handle (transitionInstallationGroup g) w) = "release-failed").
Proof.
  repeat apply conj.
  - intros i w msg w1 H. unfold Do. cbn [bind call].
    rewrite (run_Vis handle _ _ _ _ _ H). reflexivity.
  - intros i g w w1 msg w2 Hlock Hread. unfold Supervise, TryLock.
    cbn [bind call]. rewrite (run_Vis handle _ _ _ _ _ Hlock).
    cbn [bind trace after]. f_equal.
    rewrite run_bind. cbn [trace].
    unfold superviseLocked at 1. cbn [bind call].
    rewrite (run_Vis handle _ _ _ _ _ Hread). cbn [run trace after app]. f_equal.
  - intros g g1 w w1 msg w2 Hread Hsame t Hagain.
    rewrite (run_superviseLocked_read w g g1 w1 Hread Hsame). f_equal.
    rewrite run_bind. cbn [trace]. fold t. f_equal.
    cbn [bind call]. rewrite (run_Vis handle _ _ _ _ _ Hagain). reflexivity.
  - intros g w msg w1 [Hst | Hst] Hring.
    + rewrite (transition_pending g Hst). unfold checkInstallationGroupPending.
      cbn [bind call]. rewrite (run_Vis handle _ _ _ _ _ Hring). reflexivity.
    + rewrite (transition_requested g Hst). unfold releaseInstallationGroup.
      cbn [bind call]. rewrite (run_Vis handle _ _ _ _ _ Hring). reflexivity.
  - intros g w ring w1 Hst Hring Hrp.
    rewrite (transition_pending g Hst). unfold checkInstallationGroupPending.
    cbn [bind call]. rewrite (run_Vis handle _ _ _ _ _ Hring).
    assert (Hgo : (String.eqb (Ring.State ring) RingStateReleaseFailed = false) /\
                  (negb (String.eqb (Ring.State ring) RingStateReleaseRequested)
                   && negb (String.eqb (Ring.State ring) RingStateReleaseInProgress)
                   = false)).
    { destruct Hrp as [-> | ->]; split; reflexivity. }
    destruct Hgo as [-> ->]. cbn [bind]. split.
    + intros msg w2 Hl. rewrite (run_Vis handle _ _ _ _ _ Hl). reflexivity.
    + intros locked w2 msg w3 Hl Hi. rewrite (run_Vis handle _ _ _ _ _ Hl).
      cbn [bind]. rewrite (run_Vis handle _ _ _ _ _ Hi). reflexivity.
  - intros g w ring w1 msg w2 Hst Hring Hrel.
    rewrite (transition_requested g Hst). unfold releaseInstallationGroup.
    cbn [bind call]. rewrite (run_Vis handle _ _ _ _ _ Hring). cbn [bind].
    rewrite (run_Vis handle _ _ _ _ _ Hrel). reflexivity.
Qed.
End StoreErrors.

(** C3, as the code has it, on the small system. *)
Lemma store_errors_witness :
  let requested := InstallationGroup.withState "release-requested" groupA in
  run scripted (Do "supervisor-1") (store1, [storeFails])
  = mkOutcome tt (store1, []) [GetInstallationGroupsPendingWork] /\
  trace (run scripted (Supervise "supervisor-1" groupA) (store1, [calm; storeFails]))
  = [ LockRingInstallationGroup "ig-a" "supervisor-1";
      GetInstallationGroupByID "ig-a";
      UnlockRingInstallationGroup "ig-a" "supervisor-1" false ] /\
  trace (run scripted (superviseLocked groupA)
             (store1, [calm; calm; calm; calm; storeFails]))
  = [ GetInstallationGroupByID "ig-a";
      GetRingFromInstallationGroupID "ig-a";
      GetInstallationGroupsLocked;
      GetInstallationGroupsReleaseInProgress;
      GetInstallationGroupByID "ig-a" ] /\
  value (run scripted (transitionInstallationGroup groupA) (store1, [storeFails]))
  = "release-failed" /\
  value (run scripted (transitionInstallationGroup groupA) (store1, [calm; storeFails]))
  = "release-failed" /\
  value (run scripted (transitionInstallationGroup groupA)
             (store1, [calm; calm; storeFails]))
  = "release-failed" /\
  value (run scripted (transitionInstallationGroup requested) (store1, [calm; storeFails]))
  = "release-failed".
Proof.
  intros requested.
  destruct (@store_errors _ scripted) as (H1 & H2 & H3 & H4 & H5 & H6).
  repeat apply conj.
  - eapply H1. reflexivity.
  - eapply (H2 "supervisor-1" groupA); reflexivity.
  - exact (H3 groupA groupA (store1, [calm; calm; calm; calm; storeFails])
              (store1, [calm; calm; calm; storeFails]) transient (store1, [])
              eq_refl eq_refl eq_refl).
  - eapply (H4 groupA); [left; reflexivity | reflexivity].
  - destruct (H5 groupA (store1, [calm; storeFails]) ring1 (store1, [storeFails])
                eq_refl eq_refl (or_introl eq_refl)) as [Hlocked _].
    exact (Hlocked transient (store1, []) eq_refl).
  - destruct (H5 groupA (store1, [calm; calm; storeFails]) ring1
                (store1, [calm; storeFails])
                eq_refl eq_refl (or_introl eq_refl)) as [_ Hprogress].
    exact (Hprogress [] (store1, [storeFails]) transient (store1, []) eq_refl eq_refl).
  - eapply (H6 requested); reflexivity.
Defined.


(** ** Sequential rollout *)

Section InProgress.
Variable known : string -> Prop.

Lemma find_hasID id l g :
  find (hasID id) l = Some g -> In g l /\ InstallationGroup.ID g = id.
Proof.
  intros H. apply find_some in H. destruct H as [Hin Hid].
  split; [exact Hin | now apply String.eqb_eq].
Qed.

(** The reference store answers within [readsCovered]. *)
Lemma store_reads (o : oracle) (e : event) (st : Store) :
  storeCovered known st -> readsCovered known e (fst (storeCall o e st)).
Proof.
  intros Hst.
  destruct e; cbn [storeCall readsCovered]; try exact I.
  - destruct (storeFault o); cbn; [exact I | ].
    apply Forall_forall. intros g Hg. apply filter_In in Hg.
    eapply Forall_forall in Hst; [exact Hst | apply Hg].
  - destruct (storeFault o); cbn; [exact I | ].
    destruct (find (hasID id) (installationGroups st)) as [g |] eqn:Hf; cbn; [| exact I].
    apply find_hasID in Hf. destruct Hf as [Hin Hid]. split; [exact Hid | ].
    eapply Forall_forall in Hst; [exact Hst | exact Hin].
Qed.

Lemma covered_updateWhere p f l :
  (forall g, covered known g -> covered known (f g)) ->
  Forall (covered known) l -> Forall (covered known) (updateWhere p f l).
Proof.
  intros Hf Hl. unfold updateWhere. apply Forall_map.
  eapply Forall_impl; [| exact Hl]. intros g Hg. cbv beta.
  destruct (p g); [apply Hf, Hg | exact Hg].
Qed.

(** A covered write keeps the rows of the reference store covered; locks
    and the other calls do not touch the states. *)
Lemma store_writes (o : oracle) (e : event) (st : Store) :
  storeCovered known st -> writesCovered known e -> storeCovered known (snd (storeCall o e st)).
Proof.
  intros Hst Hpre. unfold storeCovered in *.
  destruct e; cbn [storeCall]; try (destruct (storeFault o)); cbn [snd]; try exact Hst.
  - cbn [installationGroups setInstallationGroups].
    unfold updateWhere. apply Forall_map.
    eapply Forall_impl; [| exact Hst]. intros g Hg. cbv beta.
    destruct (hasID _ g) eqn:Hid; [| exact Hg].
    apply String.eqb_eq in Hid. intros Hs. cbn in Hs |- *. rewrite Hid.
    apply Hpre. exact Hs.
  - destruct (find _ _) as [g |]; [| exact Hst].
    destruct (isLocked g); [exact Hst | ].
    cbn [snd installationGroups setInstallationGroups].
    apply covered_updateWhere; [| exact Hst]. intros g' Hg'. exact Hg'.
  - destruct (find _ _) as [g |]; [| exact Hst].
    destruct (_ || _); [| exact Hst].
    cbn [snd installationGroups setInstallationGroups].
    apply covered_updateWhere; [| exact Hst]. intros g' Hg'. exact Hg'.
Qed.

Lemma writesCovered_benign : benign (writesCovered known).
Proof. intros []; exact I. Qed.

Lemma check_never_in_progress g :
  safe (writesCovered known) (readsCovered known) notInProgress (checkInstallationGroupPending g).
Proof.
  unfold checkInstallationGroupPending. cbn [bind call safe].
  split; [exact I | intros [ring | msg] _]; [| discriminate].
  destruct (String.eqb _ _); [discriminate | ].
  destruct (_ && _); [discriminate | ].
  cbn [bind call safe].
  split; [exact I | intros [locked | msg] _]; [| discriminate].
  cbn [bind call safe].
  split; [exact I | intros [inProgress | msg] _]; [| discriminate].
  destruct (_ || _); discriminate.
Qed.

Lemma release_never_in_progress g :
  safe (writesCovered known) (readsCovered known) notInProgress (releaseInstallationGroup g).
Proof.
  unfold releaseInstallationGroup. cbn [bind call safe].
  split; [exact I | intros [ring | msg] _]; [| discriminate].
  cbn [bind call safe].
  split; [exact I | intros [release | msg] _]; [| discriminate].
  cbn [bind call safe].
  split; [exact I | intros [u | msg] _]; [| discriminate].
  destruct (RingRelease.Force release); discriminate.
Qed.

Lemma soak_never_in_progress g :
  safe (writesCovered known) (readsCovered known) notInProgress (soakInstallationGroup g).
Proof.
  unfold soakInstallationGroup. cbn [bind call safe].
  split; [exact I | intros now _].
  destruct (_ <? _)%Z; [discriminate | ].
  cbn [bind call safe].
  split; [exact I | intros [u | msg] _]; discriminate.
Qed.

(** The transition computes [release-in-progress] only for a group that
    is in it already. *)
Lemma transition_in_progress g :
  safe (writesCovered known) (readsCovered known)
       (fun s => s = "release-in-progress" ->
                 InstallationGroup.State g = "release-in-progress")
       (transitionInstallationGroup g).
Proof.
  unfold transitionInstallationGroup. cbn [switch].
  destruct (String.eqb _ _).
  { eapply safe_weaken; [| apply check_never_in_progress]. intros s Hs E. contradiction. }
  destruct (String.eqb _ _).
  { eapply safe_weaken; [| apply release_never_in_progress]. intros s Hs E. contradiction. }
  destruct (String.eqb _ _).
  { eapply safe_weaken; [| apply soak_never_in_progress]. intros s Hs E. contradiction. }
  cbn. trivial.
Qed.

Lemma covered_superviseLocked g :
  safe (writesCovered known) (readsCovered known) (fun _ => True) (superviseLocked g).
Proof.
  unfold superviseLocked. cbn [bind call safe].
  split; [exact I | intros [g1 | msg] Hg1]; [| exact I].
  destruct (negb _); [exact I | ].
  destruct Hg1 as [Hid1 Hcov1].
  eapply safe_bind; [apply transition_in_progress | ].
  intros newState Hnew. cbn [bind call safe].
  split; [exact I | intros [g2 | msg] Hg2]; [| exact I].
  destruct Hg2 as [Hid2 _].
  apply safe_persist; [apply writesCovered_benign | ].
  intros g' Hs Hid. cbn. intros Hp.
  rewrite Hid, Hid2. apply Hcov1, Hnew. congruence.
Qed.

Lemma covered_Do i : safe (writesCovered known) (readsCovered known) (fun _ => True) (Do i).
Proof.
  unfold Do. cbn [bind call safe].
  split; [exact I | intros [l | msg] Hl]; [| exact I].
  apply safe_forEach with (P := fun _ => True); [apply Forall_forall; trivial | ].
  intros g _.
  apply safe_Supervise; [apply writesCovered_benign | apply covered_superviseLocked].
Qed.

Lemma Forall_setNth {A} (P : A -> Prop) (n : nat) (a : A) (l : list A) :
  P a -> Forall P l -> Forall P (setNth n a l).
Proof.
  intros Ha Hl. revert n. induction Hl as [| b l Hb Hl IH]; intros n.
  - destruct n; constructor.
  - destruct n; cbn [setNth]; constructor; auto.
Qed.

Lemma sysStep_covered (s : system) (c : choice) :
  sysCovered known s -> sysCovered known (sysStep s c).
Proof.
  intros [Hst Hth]. unfold sysStep.
  destruct (nth_error (threads s) (who c)) as [t |] eqn:Ht; [| split; assumption].
  apply nth_error_In in Ht.
  pose proof (proj1 (Forall_forall _ _) Hth t Ht) as Hsafe. cbv beta in Hsafe.
  destruct (code t) as [u | e k].
  - split; [exact Hst | ]. cbn [threads].
    apply Forall_setNth; [apply covered_Do | exact Hth].
  - cbn [safe] in Hsafe. destruct Hsafe as [Hpre Hk].
    split; cbn [store threads].
    + apply store_writes; assumption.
    + apply Forall_setNth; [| exact Hth]. cbn [code].
      apply Hk. apply store_reads. exact Hst.
Qed.

Lemma exec_covered (schedule : list choice) (s : system) :
  sysCovered known s -> sysCovered known (exec schedule s).
Proof.
  revert s. induction schedule as [| c rest IH]; intros s Hs; [exact Hs | ].
  cbn [exec fold_left]. apply IH, sysStep_covered, Hs.
Qed.
End InProgress.

Lemma boot_covered (st : Store) (instances : list string) :
  sysCovered (inProgressIn st) (boot st instances).
Proof.
  split.
  - apply Forall_forall. intros g Hg Hs. exists g. repeat split; assumption.
  - cbn [boot threads]. apply Forall_forall. intros t Ht.
    apply in_map_iff in Ht. destruct Ht as [i [<- _]]. exact I.
Qed.

(** Whatever the number of supervisor instances, the interleaving of
    their calls, the errors of the store and of the provisioner and the
    clock, an installation group is in [release-in-progress] only if one
    of the same ID was at the start; so at most one installation group is
    in [release-in-progress] at every reachable state when this holds at
    the start. *)
Lemma release_in_progress_never_entered
    (st : Store) (instances : list string) (schedule : list choice) :
  atMostOne inReleaseInProgress st ->
  let reached := store (exec schedule (boot st instances)) in
  atMostOne inReleaseInProgress reached /\
  (forall g, In g (installationGroups reached) ->
             InstallationGroup.State g = "release-in-progress" ->
             inProgressIn st (InstallationGroup.ID g)).
Proof.
  intros Hone reached.
  destruct (exec_covered (inProgressIn st) schedule _ (boot_covered st instances))
    as [Hcov _].
  fold reached in Hcov.
  assert (Hknown : forall g, In g (installationGroups reached) ->
                             InstallationGroup.State g = "release-in-progress" ->
                             inProgressIn st (InstallationGroup.ID g)).
  { intros g Hg Hs. exact (proj1 (Forall_forall _ _) Hcov g Hg Hs). }
  split; [| exact Hknown].
  intros g1 g2 Hg1 Hg2 Hp1 Hp2.
  apply String.eqb_eq in Hp1, Hp2.
  destruct (Hknown g1 Hg1 Hp1) as [h1 [Hin1 [Hs1 Hid1]]].
  destruct (Hknown g2 Hg2 Hp2) as [h2 [Hin2 [Hs2 Hid2]]].
  rewrite <- Hid1, <- Hid2.
  apply Hone; try assumption; apply String.eqb_eq; assumption.
Qed.

(** C1 as stated fails: on the small system, where no group is busy, two
    instances come to hold the locks of group a and of group b at the same
    moment. *)
Lemma two_installation_groups_locked :
  let reached := store (exec twoInstances (boot store1 ["supervisor-1"; "supervisor-2"])) in
  atMostOne busy store1 /\
  map InstallationGroup.LockAcquiredBy (installationGroups reached)
  = [Some "supervisor-1"; Some "supervisor-2"] /\
  ~ atMostOne busy reached.
Proof.
  intros reached. split; [| split].
  - intros g1 g2 H1 H2 B1 B2. cbn in H1.
    destruct H1 as [<- | [<- | []]]; discriminate B1.
  - vm_compute. reflexivity.
  - intros H.
    specialize (H (withLock (Some "supervisor-1") 0 groupA)
                  (withLock (Some "supervisor-2") 0 groupB)).
    assert (Hne : "ig-a" = "ig-b"); [| discriminate Hne].
    apply H; vm_compute; auto.
Qed.


(** ** Mutual exclusion of the releases *)

Section GuardedFacts.
Variable inst : string.

Lemma guarded_weaken {R} (Q Q' : phase -> R -> Prop) ph (p : prog R) :
  (forall ph' r, Q ph' r -> Q' ph' r) -> guarded inst Q ph p -> guarded inst Q' ph p.
Proof.
  intros HQ. revert ph. induction p as [r | e k IH]; intros ph; cbn [guarded].
  - apply HQ.
  - intros [Ha Hk]. split; [exact Ha | ]. intros x. apply IH, Hk.
Qed.

Lemma guarded_bind {A B} (Q : phase -> A -> Prop) (Q' : phase -> B -> Prop) ph
      (p : prog A) (f : A -> prog B) :
  guarded inst Q ph p ->
  (forall ph' a, Q ph' a -> guarded inst Q' ph' (f a)) ->
  guarded inst Q' ph (bind p f).
Proof.
  intros Hp Hf. revert ph Hp. induction p as [r | e k IH]; intros ph Hp; cbn [guarded bind] in *.
  - apply Hf, Hp.
  - destruct Hp as [Ha Hk]. split; [exact Ha | ]. intros x. apply IH, Hk.
Qed.

Lemma guarded_forEach {A} ph (l : list A) (f : A -> prog unit) :
  (forall a ph', guarded inst (fun _ _ => True) ph' (f a)) ->
  guarded inst (fun _ _ => True) ph (forEach l f).
Proof.
  intros Hf. revert ph. induction l as [| a l IH]; intros ph; cbn [forEach]; [exact I | ].
  eapply guarded_bind; [apply Hf | intros ph' _ _; apply IH].
Qed.

Lemma guarded_check g ph id :
  held ph = Some id ->
  guarded inst clearedIfRequested ph (checkInstallationGroupPending g).
Proof.
  intros Hheld. unfold checkInstallationGroupPending. cbn [bind call guarded allowed observe].
  split; [exact I | intros [ring | msg]]; [| discriminate].
  destruct (String.eqb _ _); [discriminate | ].
  destruct (_ && _); [discriminate | ].
  cbn [bind call guarded allowed observe]. rewrite Hheld.
  split; [exact I | intros [locked | msg]]; [| discriminate].
  cbn [bind call guarded allowed].
  split; [exact I | intros [inProgress | msg]].
  - destruct (Nat.ltb_spec 1 (length locked)) as [Hmany | Hfew]; cbn [orb];
      [discriminate | ].
    destruct inProgress as [| r rest]; cbn [length Nat.ltb Nat.leb orb]; [| discriminate].
    intros _. replace (length locked <=? 1)%nat with true
      by (symmetry; apply Nat.leb_le; exact Hfew).
    cbn [observe]. eauto.
  - discriminate.
Qed.

Lemma guarded_release g ph :
  guarded inst clearedIfRequested ph (releaseInstallationGroup g).
Proof.
  unfold releaseInstallationGroup. cbn [bind call guarded allowed].
  split; [exact I | intros [ring | msg]]; [| discriminate].
  cbn [bind call guarded allowed].
  split; [exact I | intros [release | msg]]; [| discriminate].
  cbn [bind call guarded allowed].
  split; [exact I | intros [u | msg]]; [| discriminate].
  destruct (RingRelease.Force release); discriminate.
Qed.

Lemma guarded_soak g ph :
  guarded inst clearedIfRequested ph (soakInstallationGroup g).
Proof.
  unfold soakInstallationGroup. cbn [bind call guarded allowed].
  split; [exact I | intros now].
  destruct (_ <? _)%Z; [discriminate | ].
  cbn [bind call guarded allowed].
  split; [exact I | intros [u | msg]]; discriminate.
Qed.

(** Under a lock, the transition computes [release-requested] only once
    the holder has found no other installation group locked and none in
    release-in-progress. *)
Lemma guarded_transition g ph id :
  held ph = Some id ->
  guarded inst clearedIfRequested ph (transitionInstallationGroup g).
Proof.
  intros Hheld. unfold transitionInstallationGroup. cbn [switch].
  destruct (String.eqb _ _); [apply (guarded_check g ph id Hheld) | ].
  destruct (String.eqb_spec (InstallationGroup.State g) InstallationGroupReleaseRequested)
    as [E | N]; [apply guarded_release | ].
  destruct (String.eqb _ _); [apply guarded_soak | ].
  cbn [guarded]. intros H. contradiction.
Qed.

Lemma guarded_notify g n o ph :
  guarded inst (fun _ _ => True) ph (notify g n o).
Proof.
  unfold notify, SendToAllWebhooks. cbn [bind call guarded allowed observe].
  split; [exact I | intros now].
  split; [exact I | intros [hooks | msg]]; [| exact I].
  eapply guarded_bind with (Q := fun _ _ => True); [| intros; exact I].
  eapply guarded_bind with (Q := fun _ _ => True); [| intros; exact I].
  apply guarded_forEach. intros hook ph'. cbn. auto.
Qed.

Lemma guarded_commit g n o ph :
  clearedIfRequested ph (InstallationGroup.State g) ->
  guarded inst (fun _ _ => True) ph (commit g n o).
Proof.
  intros Hc. unfold commit. cbn [bind call guarded allowed observe].
  split; [exact Hc | intros [u | msg]]; [| exact I].
  destruct (_ || _); [| apply guarded_notify].
  cbn [bind call guarded allowed observe].
  split; [exact I | intros [rs | msg]]; [| exact I].
  cbn [bind call guarded allowed observe].
  split; [exact I | intros [u' | msg]]; [| exact I].
  apply guarded_notify.
Qed.

Lemma guarded_persist g newState ph :
  clearedIfRequested ph newState ->
  guarded inst (fun _ _ => True) ph (persist g newState).
Proof.
  intros Hc. unfold persist.
  destruct (String.eqb _ _); [exact I | ].
  destruct (_ && _).
  - cbn [bind call guarded allowed observe]. split; [exact I | intros now].
    apply guarded_commit. exact Hc.
  - apply guarded_commit. exact Hc.
Qed.

Lemma guarded_superviseLocked g ph id :
  held ph = Some id ->
  guarded inst (fun _ _ => True) ph (superviseLocked g).
Proof.
  intros Hheld. unfold superviseLocked. cbn [bind call guarded allowed observe].
  split; [exact I | intros [g1 | msg]]; [| exact I].
  destruct (negb _); [exact I | ].
  eapply guarded_bind; [apply (guarded_transition g1 ph id Hheld) | ].
  intros ph' newState Hnew. cbn [bind call guarded allowed observe].
  split; [exact I | intros [g2 | msg]]; [| exact I].
  apply guarded_persist. exact Hnew.
Qed.

Lemma guarded_Supervise g ph :
  guarded inst (fun _ _ => True) ph (Supervise inst g).
Proof.
  unfold Supervise, TryLock. cbn [bind call guarded allowed observe].
  split; [reflexivity | intros [[|] | msg]]; cbn [bind]; try exact I.
  eapply guarded_bind with (Q := fun _ _ => True).
  - apply (guarded_superviseLocked g _ (InstallationGroup.ID g)). reflexivity.
  - intros ph' _ _. unfold Unlock. cbn. auto.
Qed.

Lemma guarded_Do ph : guarded inst (fun _ _ => True) ph (Do inst).
Proof.
  unfold Do. cbn [bind call guarded allowed observe].
  split; [exact I | intros [l | msg]]; [| exact I].
  apply guarded_forEach. intros g ph'. apply guarded_Supervise.
Qed.
End GuardedFacts.

Lemma length_setNth {A} n (a : A) l : length (setNth n a l) = length l.
Proof.
  revert n. induction l as [| b l IH]; intros [| n]; cbn [setNth length]; auto.
Qed.

Lemma nth_error_setNth_same {A} n (a : A) l :
  (n < length l)%nat -> nth_error (setNth n a l) n = Some a.
Proof.
  revert n. induction l as [| b l IH]; intros [| n] H; cbn in *; try lia; auto.
  apply IH. lia.
Qed.

Lemma nth_error_setNth_other {A} n m (a : A) l :
  n <> m -> nth_error (setNth n a l) m = nth_error l m.
Proof.
  revert n m. induction l as [| b l IH]; intros [| n] [| m] H; cbn; auto; try congruence.
Qed.

Lemma map_setNth_same {A B} (f : A -> B) n (a b : A) l :
  nth_error l n = Some b -> f a = f b -> map f (setNth n a l) = map f l.
Proof.
  revert n. induction l as [| c l IH]; intros [| n] Hn Hf; cbn in *; try discriminate.
  - injection Hn as ->. now rewrite Hf.
  - f_equal. now apply IH.
Qed.

Lemma nth_nth_error {A} n (l : list A) d a :
  nth_error l n = Some a -> nth n l d = a.
Proof.
  revert n. induction l as [| b l IH]; intros [| n]; cbn; try discriminate.
  - now intros [= ->].
  - apply IH.
Qed.

Lemma two_in_list {A} (a b : A) l : In a l -> In b l -> a <> b -> (2 <= length l)%nat.
Proof.
  intros Ha Hb Hne. destruct l as [| x [| y l]]; cbn [length]; [destruct Ha | | lia].
  destruct Ha as [<- | []]. destruct Hb as [<- | []]. contradiction Hne. reflexivity.
Qed.

Lemma lockedBy_relock p by_ at_ inst id st :
  lockedBy inst id st ->
  (forall r, In r (installationGroups st) -> InstallationGroup.ID r = id -> p r = false) ->
  lockedBy inst id
    (setInstallationGroups (updateWhere p (withLock by_ at_) (installationGroups st)) st).
Proof.
  intros [[r0 [Hin0 Hid0]] Hall] Hp. split.
  - exists r0. split; [| exact Hid0]. cbn. unfold updateWhere.
    apply in_map_iff. exists r0. rewrite (Hp r0 Hin0 Hid0). auto.
  - intros r Hr Hid. cbn in Hr. unfold updateWhere in Hr.
    apply in_map_iff in Hr. destruct Hr as [r' [Heq Hin']].
    destruct (p r') eqn:Hpr.
    + subst r. cbn in Hid. rewrite (Hp r' Hin' Hid) in Hpr. discriminate.
    + subst r. apply Hall; assumption.
Qed.

(** A call keeps the lock that [inst] holds on [id], unless it is an
    unlock of [id] on behalf of [inst] or with force. *)
Lemma storeCall_keeps_lock o e st inst id :
  lockedBy inst id st ->
  match e with
  | UnlockRingInstallationGroup id0 lockerID force =>
      force = false /\ (id0 = id -> lockerID <> inst)
  | _ => True
  end ->
  lockedBy inst id (snd (storeCall o e st)).
Proof.
  intros Hl He.
  destruct e; cbn [storeCall]; try (destruct (storeFault o)); cbn [snd]; try exact Hl.
  - (* UpdateInstallationGroup *)
    destruct Hl as [[r0 [Hin0 Hid0]] Hall]. split.
    + exists (if hasID (InstallationGroup.ID installationGroup) r0
              then overwrite installationGroup r0 else r0).
      split.
      * cbn. unfold updateWhere. apply in_map_iff. exists r0. auto.
      * destruct (hasID _ r0); exact Hid0.
    + intros r Hr Hid. cbn in Hr. unfold updateWhere in Hr.
      apply in_map_iff in Hr. destruct Hr as [r' [Heq Hin']].
      destruct (hasID _ r'); subst r; cbn in Hid |- *; apply Hall; assumption.
  - (* Lock *)
    destruct (find _ _) as [g |] eqn:Hf; [| exact Hl].
    destruct (isLocked g) eqn:Hlk; [exact Hl | ]. cbn [snd].
    apply lockedBy_relock; [exact Hl | ].
    intros r Hr Hid. unfold hasID. apply String.eqb_neq. intros Heq.
    apply find_some in Hf. destruct Hf as [Hg Hgid]. apply String.eqb_eq in Hgid.
    destruct Hl as [_ Hall].
    assert (Hown : InstallationGroup.LockAcquiredBy g = Some inst)
      by (apply Hall; [exact Hg | congruence]).
    unfold isLocked in Hlk. rewrite Hown in Hlk. discriminate.
  - (* Unlock *)
    destruct He as [-> Hne].
    destruct (find _ _) as [g |] eqn:Hf; [| exact Hl].
    cbn [orb]. destruct (InstallationGroup.LockAcquiredBy g) as [owner |] eqn:Hown;
      [| exact Hl].
    destruct (String.eqb_spec owner lockerID) as [-> | Hno]; [| exact Hl]. cbn [snd].
    apply lockedBy_relock; [exact Hl | ].
    intros r Hr Hid. unfold hasID. apply String.eqb_neq. intros Heq.
    apply find_some in Hf. destruct Hf as [Hg Hgid]. apply String.eqb_eq in Hgid.
    destruct Hl as [_ Hall].
    assert (Hown' : InstallationGroup.LockAcquiredBy g = Some inst)
      by (apply Hall; [exact Hg | congruence]).
    rewrite Hown in Hown'. injection Hown' as ->.
    apply Hne; congruence.
Qed.

(** A lock that is acquired is held on every row of the installation
    group. *)
Lemma storeCall_takes_lock o id inst st :
  fst (storeCall o (LockRingInstallationGroup id inst) st) = Ok true ->
  lockedBy inst id (snd (storeCall o (LockRingInstallationGroup id inst) st)).
Proof.
  cbn [storeCall]. destruct (storeFault o); [discriminate | ].
  destruct (find _ _) as [g |] eqn:Hf; [| discriminate].
  destruct (isLocked g); [discriminate | ]. intros _. cbn [snd].
  apply find_some in Hf. destruct Hf as [Hg Hgid]. apply String.eqb_eq in Hgid.
  split.
  - exists (withLock (Some inst) (clock o) g). split; [| exact Hgid].
    cbn. unfold updateWhere. apply in_map_iff. exists g. split; [| exact Hg].
    unfold hasID. rewrite Hgid, String.eqb_refl. reflexivity.
  - intros r Hr Hid. cbn in Hr. unfold updateWhere in Hr.
    apply in_map_iff in Hr. destruct Hr as [r' [Heq Hin']].
    destruct (hasID id r') eqn:Hh; subst r; [reflexivity | ].
    unfold hasID in Hh. apply String.eqb_neq in Hh. contradiction.
Qed.

Lemma observe_held ph e (x : resp e) id :
  held (observe ph e x) = Some id ->
  held ph = Some id \/
  match e return resp e -> Prop with
  | LockRingInstallationGroup id0 _ => fun x => id0 = id /\ x = Ok true
  | _ => fun _ => False
  end x.
Proof.
  destruct e; cbn [observe]; auto.
  - destruct x as [[|] | msg]; cbn [held]; auto. intros [= ->]. auto.
  - discriminate.
  - destruct (held ph) as [h |] eqn:Hh; [| discriminate].
    destruct x as [l | msg]; [destruct (_ <=? _)%nat |]; cbn [held]; auto.
  - destruct ph; auto; destruct x as [[| r l] | msg]; cbn [held]; auto.
Qed.

Lemma observe_aloneish ph e (x : resp e) :
  aloneish (observe ph e x) = true ->
  aloneish ph = true \/
  match e return resp e -> Prop with
  | GetInstallationGroupsLocked =>
      fun x => exists id l, held ph = Some id /\ x = Ok l /\ (length l <= 1)%nat
  | _ => fun _ => False
  end x.
Proof.
  destruct e; cbn [observe]; auto.
  - destruct x as [[|] | msg]; cbn [aloneish]; auto. discriminate.
  - discriminate.
  - destruct (held ph) as [h |] eqn:Hh; [| discriminate].
    destruct x as [l | msg]; [| discriminate].
    destruct (Nat.leb_spec (length l) 1); [| discriminate].
    intros _. right. eauto.
  - destruct ph; auto; destruct x as [[| r l] | msg]; cbn [aloneish]; auto.
Qed.

Lemma distinct_instances (l : list thread) i j ti tj :
  NoDup (map instanceID l) ->
  nth_error l i = Some ti -> nth_error l j = Some tj -> i <> j ->
  instanceID ti <> instanceID tj.
Proof.
  intros Hnd Hi Hj Hne Heq. apply Hne.
  apply (proj1 (NoDup_nth_error (map instanceID l)) Hnd).
  - rewrite length_map. apply nth_error_Some. congruence.
  - rewrite !nth_error_map, Hi, Hj. cbn. congruence.
Qed.

Lemma stepM_sequential (m : system * list phase) (c : choice) :
  sequential m -> sequential (stepM m c).
Proof.
  destruct m as [s phs]. intros (Hlen & Hnd & Hth & Hone).
  cbn [fst snd] in *. unfold stepM, sysStep, watch. cbn [fst snd].
  destruct (nth_error (threads s) (who c)) as [t |] eqn:Ht;
    [| refine (conj _ (conj _ (conj _ _))); assumption].
  assert (Hlt : (who c < length (threads s))%nat) by (apply nth_error_Some; congruence).
  destruct (nth_error phs (who c)) as [ph |] eqn:Hph;
    [| apply nth_error_None in Hph; lia].
  destruct (Hth _ _ _ Ht Hph) as [Hcode Hlock].
  destruct (code t) as [u | e k] eqn:Hc.
  - (* the next tick starts *)
    unfold sequential. cbn [fst snd store threads]. refine (conj _ (conj _ (conj _ _))).
    + now rewrite length_setNth.
    + erewrite map_setNth_same; [exact Hnd | exact Ht | reflexivity].
    + intros i t' ph' H H0.
      destruct (Nat.eq_dec i (who c)) as [-> | Hne].
      * rewrite nth_error_setNth_same in H by assumption. injection H as <-.
        rewrite Hph in H0. injection H0 as <-. cbn [code instanceID].
        split; [apply guarded_Do | exact Hlock].
      * rewrite nth_error_setNth_other in H by congruence.
        apply (Hth _ _ _ H H0).
    + exact Hone.
  - (* a call is served *)
    cbn [guarded] in Hcode. destruct Hcode as [Hallowed Hk].
    rewrite (nth_nth_error _ _ Idle _ Hph).
    set (x := fst (storeCall (meets c) e (store s))).
    unfold sequential. cbn [fst snd store threads]. refine (conj _ (conj _ (conj _ _))).
    + now rewrite !length_setNth.
    + erewrite map_setNth_same; [exact Hnd | exact Ht | reflexivity].
    + intros i t' ph' H H0. split.
      { destruct (Nat.eq_dec i (who c)) as [-> | Hne].
        * rewrite nth_error_setNth_same in H by assumption. injection H as <-.
          rewrite nth_error_setNth_same in H0 by lia. injection H0 as <-.
          cbn [code instanceID]. apply Hk.
        * rewrite nth_error_setNth_other in H by congruence.
        rewrite nth_error_setNth_other in H0 by congruence.
          apply (Hth _ _ _ H H0). }
      intros id Hheld.
      destruct (Nat.eq_dec i (who c)) as [-> | Hne].
      * rewrite nth_error_setNth_same in H by assumption. injection H as <-.
        rewrite nth_error_setNth_same in H0 by lia. injection H0 as <-.
        cbn [instanceID].
        destruct (observe_held _ _ _ _ Hheld) as [Hold | Hnew].
        -- destruct e; try (apply storeCall_keeps_lock; [apply Hlock, Hold | exact I]).
           cbn [observe held] in Hheld. discriminate.
        -- destruct e; try contradiction. destruct Hnew as [-> Hx].
           cbn [allowed] in Hallowed. subst lockerID.
           apply storeCall_takes_lock. exact Hx.
      * rewrite nth_error_setNth_other in H by congruence.
        rewrite nth_error_setNth_other in H0 by congruence.
        destruct (Hth _ _ _ H H0) as [_ Hlock'].
        apply storeCall_keeps_lock; [apply Hlock', Hheld | ].
        destruct e; try exact I. cbn [allowed] in Hallowed.
        destruct Hallowed as [-> ->]. split; [reflexivity | ].
        intros _. apply not_eq_sym.
        apply (distinct_instances (threads s) i (who c)); assumption.
    + (* at most one instance is alone *)
      intros i j phi phj Hi Hj Hai Haj.
      assert (Hcase : forall a b pha phb,
                 a <> who c -> b = who c ->
                 nth_error phs a = Some pha -> aloneish pha = true ->
                 phb = observe ph e x -> aloneish phb = true -> a = b).
      { intros a b pha phb Ha -> Hpa Hal -> Hbl.
        destruct (observe_aloneish _ _ _ Hbl) as [Hold | Hnew].
        - apply (Hone a (who c) pha ph); assumption.
        - exfalso. destruct e; try contradiction.
          destruct Hnew as (id & l & Hheld & Hx & Hfew).
          assert (Hta : exists ta, nth_error (threads s) a = Some ta).
          { destruct (nth_error (threads s) a) eqn:E; [eauto | ].
            apply nth_error_None in E.
            assert (a < length phs)%nat by (apply nth_error_Some; congruence). lia. }
          destruct Hta as [ta Hta].
          assert (Hha : exists ida, held pha = Some ida)
            by (destruct pha; try discriminate; cbn; eauto).
          destruct Hha as [ida Hha].
          destruct (Hth _ _ _ Hta Hpa) as [_ Hla].
          destruct (Hla ida Hha) as [[ra [Hra _]] Hownera].
          destruct (Hlock id Hheld) as [[rc [Hrc Hrcid]] Hownerc].
          subst x. cbn [storeCall] in Hx.
          destruct (storeFault (meets c)); [discriminate | ].
          cbn [fst] in Hx. injection Hx as <-.
          assert (Hra' : exists r, In r (installationGroups (store s)) /\
                                   InstallationGroup.LockAcquiredBy r
                                   = Some (instanceID ta)).
          { destruct (Hla ida Hha) as [[r [Hr Hrid]] Hown]. exists r. auto. }
          destruct Hra' as [r1 [Hr1 Hown1]].
          assert (Hown2 : InstallationGroup.LockAcquiredBy rc = Some (instanceID t))
            by (apply Hownerc; assumption).
          assert (Hne : r1 <> rc).
          { intros ->. rewrite Hown1 in Hown2. injection Hown2 as Heq.
            apply (distinct_instances (threads s) a (who c) ta t); assumption. }
          pose proof (two_in_list r1 rc (filter isLocked (installationGroups (store s))))
            as H2.
          assert (2 <= length (filter isLocked (installationGroups (store s))))%nat.
          { apply H2; [| | exact Hne]; apply filter_In; split; try assumption;
              unfold isLocked; [rewrite Hown1 | rewrite Hown2]; reflexivity. }
          lia. }
      destruct (Nat.eq_dec i (who c)) as [Ei | Ni], (Nat.eq_dec j (who c)) as [Ej | Nj].
      * congruence.
      * symmetry. rewrite nth_error_setNth_other in Hj by congruence.
        subst i. rewrite nth_error_setNth_same in Hi by lia. injection Hi as <-.
        eapply Hcase; eauto.
      * rewrite nth_error_setNth_other in Hi by congruence.
        subst j. rewrite nth_error_setNth_same in Hj by lia. injection Hj as <-.
        eapply Hcase; eauto.
      * rewrite nth_error_setNth_other in Hi by congruence.
        rewrite nth_error_setNth_other in Hj by congruence.
        apply (Hone i j phi phj); assumption.
Qed.

Lemma execM_sequential (schedule : list choice) (m : system * list phase) :
  sequential m -> sequential (execM schedule m).
Proof.
  revert m. induction schedule as [| c rest IH]; intros m Hm; [exact Hm | ].
  cbn [execM fold_left]. apply IH, stepM_sequential, Hm.
Qed.

Lemma fst_execM (schedule : list choice) (m : system * list phase) :
  fst (execM schedule m) = exec schedule (fst m).
Proof.
  revert m. induction schedule as [| c rest IH]; intros m; [reflexivity | ].
  cbn [execM exec fold_left]. apply IH.
Qed.

Lemma bootM_sequential (st : Store) (instances : list string) :
  NoDup instances -> sequential (bootM st instances).
Proof.
  intros Hnd. unfold sequential, bootM, boot. cbn [fst snd threads store].
  refine (conj _ (conj _ (conj _ _))).
  - now rewrite !length_map.
  - rewrite map_map. cbn [instanceID]. now rewrite map_id.
  - intros i t ph Ht Hph.
    rewrite nth_error_map in Ht. rewrite nth_error_map in Hph.
    destruct (nth_error instances i); [| discriminate].
    cbn in Ht, Hph. injection Ht as <-. injection Hph as <-.
    split; [exact I | discriminate].
  - intros i j phi phj Hi _ Hai _.
    rewrite nth_error_map in Hi. destruct (nth_error instances i); [| discriminate].
    cbn in Hi. injection Hi as <-. discriminate Hai.
Qed.

(** C1, as the code has it.  For supervisor instances of distinct IDs,
    whatever the interleaving of their calls, the errors of the store and
    of the provisioner and the clock, at every reachable state: at most
    one installation group is in [release-in-progress], when this holds
    at the start; at most one installation group is held for release,
    that is under the lock of an instance that has since found no other
    installation group locked; the lock an instance holds is on the rows
    of the store; and an instance writes [release-requested] only when it
    holds a lock and has found no other installation group locked and
    none in [release-in-progress]. *)
Theorem sequential_rollout_invariant
    (st : Store) (instances : list string) (schedule : list choice) :
  NoDup instances ->
  atMostOne inReleaseInProgress st ->
  let reached := execM schedule (bootM st instances) in
  atMostOne inReleaseInProgress (store (fst reached)) /\
  (forall id id',
      heldForRelease (snd reached) id -> heldForRelease (snd reached) id' -> id = id') /\
  (forall i t ph,
      nth_error (threads (fst reached)) i = Some t ->
      nth_error (snd reached) i = Some ph ->
      (forall id, held ph = Some id -> lockedBy (instanceID t) id (store (fst reached))) /\
      (forall g k,
          code t = Vis (UpdateInstallationGroup g) k ->
          InstallationGroup.State g = "release-requested" ->
          exists id, ph = Cleared id)).
Proof.
  intros Hnd Hone reached.
  pose proof (execM_sequential schedule _ (bootM_sequential st instances Hnd))
    as (Hlen & _ & Hth & Hex).
  fold reached in Hlen, Hth, Hex.
  refine (conj _ (conj _ _)).
  - subst reached. rewrite fst_execM. cbn [bootM fst].
    exact (proj1 (release_in_progress_never_entered st instances schedule Hone)).
  - intros id id' (i & phi & Hi & Hai & Hhi) (j & phj & Hj & Haj & Hhj).
    assert (i = j) by (apply (Hex i j phi phj); assumption). subst j.
    congruence.
  - intros i t ph Ht Hph. destruct (Hth i t ph Ht Hph) as [Hg Hl].
    split; [exact Hl | ].
    intros g k Hc Hs. rewrite Hc in Hg. cbn [guarded allowed] in Hg.
    apply Hg, Hs.
Qed.

(** C1, as the code has it, on the race of two instances on the small
    system: both locks are held, group a alone is held for release, and
    the first instance is about to write it in [release-requested]. *)
Lemma sequential_rollout_invariant_witness :
  let reached := execM raced (bootM store1 ["supervisor-1"; "supervisor-2"]) in
  snd reached = [Cleared "ig-a"; Holding "ig-b"] /\
  map InstallationGroup.LockAcquiredBy (installationGroups (store (fst reached)))
  = [Some "supervisor-1"; Some "supervisor-2"] /\
  heldForRelease (snd reached) "ig-a" /\
  (forall id, heldForRelease (snd reached) id -> id = "ig-a") /\
  lockedBy "supervisor-1" "ig-a" (store (fst reached)) /\
  lockedBy "supervisor-2" "ig-b" (store (fst reached)) /\
  atMostOne inReleaseInProgress (store (fst reached)).
Proof.
  intros reached.
  assert (Hnd : NoDup ["supervisor-1"; "supervisor-2"]).
  { constructor; [cbn; intuition discriminate | ].
    constructor; [cbn; tauto | constructor]. }
  assert (Hone : atMostOne inReleaseInProgress store1).
  { intros g1 g2 H1 H2 P1 P2. cbn in H1.
    destruct H1 as [<- | [<- | []]]; discriminate P1. }
  destruct (sequential_rollout_invariant store1 ["supervisor-1"; "supervisor-2"] raced
              Hnd Hone) as (Hprogress & Hexclusive & Hlocks).
  fold reached in Hprogress, Hexclusive, Hlocks.
  assert (Hphases : snd reached = [Cleared "ig-a"; Holding "ig-b"])
    by (vm_compute; reflexivity).
  assert (Hheld : heldForRelease (snd reached) "ig-a").
  { exists 0%nat, (Cleared "ig-a"). rewrite Hphases. repeat split. }
  assert (Hthreads : exists t0 t1, threads (fst reached) = [t0; t1] /\
                                   instanceID t0 = "supervisor-1" /\
                                   instanceID t1 = "supervisor-2").
  { destruct (threads (fst reached)) as [| t0 [| t1 [| t2 l]]] eqn:E;
      try (apply (f_equal (@length thread)) in E; vm_compute in E; discriminate E).
    exists t0, t1. split; [reflexivity | ].
    assert (Hids : map instanceID (threads (fst reached))
                   = ["supervisor-1"; "supervisor-2"]) by (vm_compute; reflexivity).
    rewrite E in Hids. cbn in Hids. injection Hids as -> ->. split; reflexivity. }
  destruct Hthreads as (t0 & t1 & Hts & Hi0 & Hi1).
  destruct (Hlocks 0%nat t0 (Cleared "ig-a")) as [Hlock0 _];
    [rewrite Hts; reflexivity | rewrite Hphases; reflexivity | ].
  destruct (Hlocks 1%nat t1 (Holding "ig-b")) as [Hlock1 _];
    [rewrite Hts; reflexivity | rewrite Hphases; reflexivity | ].
  rewrite Hi0 in Hlock0. rewrite Hi1 in Hlock1.
  refine (conj Hphases (conj _ (conj Hheld (conj _ (conj _ (conj _ Hprogress)))))).
  - vm_compute. reflexivity.
  - intros id Hid. exact (Hexclusive id "ig-a" Hid Hheld).
  - exact (Hlock0 "ig-a" eq_refl).
  - exact (Hlock1 "ig-b" eq_refl).
Defined.


(** * Further properties of the code *)

(** ** Ring states *)

Lemma ValidTransitionState_true (c : Ring.t) (t : string) :
  ValidTransitionState c t = true <->
  (t = RingStateCreationRequested /\
   In (Ring.State c) [RingStateCreationRequested; RingStateCreationFailed]) \/
  (t = RingStateReleaseRequested /\
   In (Ring.State c) [RingStateStable; RingStateReleaseRequested; RingStateReleaseFailed]) \/
  (t = RingStateDeletionRequested /\
   In (Ring.State c)
      [RingStateStable; RingStateCreationRequested; RingStateCreationFailed;
       RingStateReleaseFailed; RingStateDeletionRequested; RingStateDeletionFailed]) \/
  (t = RingStateSoakingRequested /\
   In (Ring.State c)
      [RingStateReleaseComplete; RingStateSoakingRequested; RingStateSoakingFailed]) \/
  (t = RingStateReleaseRollbackRequested /\
   In (Ring.State c)
      [RingStateSoakingFailed; RingStateReleaseFailed; RingStateReleaseRollbackFailed]).
Proof.
  unfold ValidTransitionState,
    validTransitionToRingStateCreationRequested, validTransitionToRingStateReleaseRequested,
    validTransitionToRingStateDeletionRequested, validTransitionToRingStateSoakingRequested,
    validTransitionToRingStateRollbackRequested.
  rewrite <- !oneOf_In.
  repeat match goal with
  | |- context [switch t ((?k, _) :: _) _] =>
      destruct (String.eqb_spec t k) as [-> | ?];
      [ rewrite switch_hit by reflexivity;
        split; [intros H; tauto | intros H];
        repeat (destruct H as [[E H] | H]; [try discriminate E; try exact H |]);
        try (destruct H as [E H]; try discriminate E; exact H)
      | rewrite switch_miss by assumption ]
  end.
  cbn [switch]. split; [discriminate | ].
  intros H. repeat (destruct H as [[E _] | H]; [contradiction |]).
  destruct H as [E _]. contradiction.
Qed.

(** X1: a transition is accepted only towards a request state and only
    from a state of [AllRingStates]. *)
Theorem ValidTransitionState_between_known_states (c : Ring.t) (t : string) :
  ValidTransitionState c t = true ->
  In t AllRingRequestStates /\ In (Ring.State c) AllRingStates.
Proof.
  intros H. apply ValidTransitionState_true in H.
  unfold AllRingRequestStates, AllRingStates.
  repeat (destruct H as [[-> H] | H]; [cbn [In] in H |- *; intuition auto |]).
  destruct H as [-> H]. cbn [In] in H |- *. intuition auto.
Qed.

(** X1 at the request of a release for a stable ring. *)
Lemma ValidTransitionState_between_known_states_witness :
  In "release-requested" AllRingRequestStates /\ In "stable" AllRingStates.
Proof.
  apply (ValidTransitionState_between_known_states (Ring.ofState "stable")).
  reflexivity.
Defined.

(** X2: for a ring in a request state, the transitions accepted are the
    same request again, except for [release-rollback-requested], which is
    not accepted again, and the deletion of a ring in
    [creation-requested]. *)
Theorem ValidTransitionState_in_flight (s t : string) :
  In s AllRingRequestStates ->
  (ValidTransitionState (Ring.ofState s) t = true <->
   (t = s /\ s <> "release-rollback-requested") \/
   (s = "creation-requested" /\ t = "deletion-requested")).
Proof.
  intros Hs. rewrite ValidTransitionState_true. cbn [Ring.State Ring.ofState].
  unfold AllRingRequestStates in Hs. cbn [In] in Hs.
  unfold RingStateCreationRequested, RingStateReleaseRequested, RingStateSoakingRequested,
    RingStateReleaseRollbackRequested, RingStateDeletionRequested in *.
  destruct Hs as [<- | [<- | [<- | [<- | [<- | []]]]]]; cbn [In]; split; intros H;
    repeat match goal with
           | H : _ \/ _ |- _ => destruct H
           | H : _ /\ _ |- _ => destruct H
           | H : False |- _ => contradiction
           end; subst; try discriminate; try congruence;
    try (left; split; [reflexivity | discriminate]);
    try (right; split; reflexivity);
    unfold RingStateCreationFailed, RingStateStable, RingStateReleaseFailed,
      RingStateDeletionFailed, RingStateReleaseComplete, RingStateSoakingFailed,
      RingStateReleaseRollbackFailed; tauto.
Qed.

(** X2 at the deletion of a ring that is being created. *)
Lemma ValidTransitionState_in_flight_witness :
  ValidTransitionState (Ring.ofState "creation-requested") "deletion-requested" = true.
Proof.
  apply (proj2 (ValidTransitionState_in_flight "creation-requested" "deletion-requested"
                  (or_introl eq_refl))).
  right. split; reflexivity.
Defined.

(** X3: some transition is accepted from a state exactly when it is a
    state of [AllRingStates] other than [release-rollback-requested],
    [release-rollback-complete] and [deleted]. *)
Theorem ValidTransitionState_dead_ends (s : string) :
  (exists t, ValidTransitionState (Ring.ofState s) t = true) <->
  In s AllRingStates /\
  s <> "release-rollback-requested" /\ s <> "release-rollback-complete" /\ s <> "deleted".
Proof.
  split.
  - intros [t H]. apply ValidTransitionState_true in H. cbn [Ring.State Ring.ofState] in H.
    unfold AllRingStates.
    repeat (destruct H as [[_ H] | H];
            [cbn [In] in H; repeat (destruct H as [<- | H]; [cbn; intuition discriminate |]);
             contradiction |]).
    destruct H as [_ H].
    cbn [In] in H; repeat (destruct H as [<- | H]; [cbn; intuition discriminate |]);
      contradiction.
  - intros [Hin [H1 [H2 H3]]]. unfold AllRingStates in Hin. cbn [In] in Hin.
    repeat (destruct Hin as [<- | Hin];
            [first [ contradiction H1; reflexivity
                   | contradiction H2; reflexivity
                   | contradiction H3; reflexivity
                   | exists "creation-requested"; reflexivity
                   | exists "release-requested"; reflexivity
                   | exists "deletion-requested"; reflexivity
                   | exists "soaking-requested"; reflexivity
                   | exists "release-rollback-requested"; reflexivity ] |]).
    contradiction.
Qed.

Lemma fold_addState (requestState : string) (states : list string) (e : StateReportEntry) :
  RequestedState (fold_left (addState requestState) states e) = RequestedState e /\
  ValidStates (fold_left (addState requestState) states e)
  = (ValidStates e
     ++ filter (fun s => ValidTransitionState (Ring.ofState s) requestState) states)%list /\
  InvalidStates (fold_left (addState requestState) states e)
  = (InvalidStates e
     ++ filter (fun s => negb (ValidTransitionState (Ring.ofState s) requestState))
               states)%list.
Proof.
  revert e. induction states as [| s l IH]; intros e; cbn [fold_left filter].
  - rewrite !app_nil_r. auto.
  - destruct (IH (addState requestState e s)) as (H1 & H2 & H3).
    rewrite H1, H2, H3. unfold addState.
    destruct (ValidTransitionState (Ring.ofState s) requestState); cbn [negb];
      cbn [RequestedState ValidStates InvalidStates];
      rewrite <- ?app_assoc; auto.
Qed.

Lemma report_entries (requests : list string) (acc : RingStateReport) :
  fold_left (fun report requestState => (report ++ [reportEntry requestState])%list)
            requests acc
  = (acc ++ map reportEntry requests)%list.
Proof.
  revert acc. induction requests as [| r l IH]; intros acc; cbn [fold_left map].
  - now rewrite app_nil_r.
  - rewrite IH, <- app_assoc. reflexivity.
Qed.

Lemma filter_split_length {A} (p : A -> bool) (l : list A) :
  (length (filter p l) + length (filter (fun a => negb (p a)) l) = length l)%nat.
Proof.
  induction l as [| a l IH]; [reflexivity | ].
  cbn [filter]. destruct (p a); cbn [negb length]; lia.
Qed.

(** X4: the report has one entry per request state, in order; the valid
    and the invalid states of an entry are the states of [AllRingStates]
    from which the request is accepted and refused, in order, so every
    state is in exactly one of them and the counts add up. *)
Theorem GetRingRequestStateReport_partitions :
  map RequestedState GetRingRequestStateReport = AllRingRequestStates /\
  forall entry, In entry GetRingRequestStateReport ->
    let valid := fun s => ValidTransitionState (Ring.ofState s) (RequestedState entry) in
    ValidStates entry = filter valid AllRingStates /\
    InvalidStates entry = filter (fun s => negb (valid s)) AllRingStates /\
    (Count (ValidStates entry) + Count (InvalidStates entry) = Count AllRingStates)%Z /\
    (forall s, In s AllRingStates ->
               (In s (ValidStates entry) <-> valid s = true) /\
               (In s (InvalidStates entry) <-> valid s = false)).
Proof.
  unfold GetRingRequestStateReport. rewrite report_entries. cbn [app].
  assert (Hentry : forall r,
             RequestedState (reportEntry r) = r /\
             ValidStates (reportEntry r)
             = filter (fun s => ValidTransitionState (Ring.ofState s) r) AllRingStates /\
             InvalidStates (reportEntry r)
             = filter (fun s => negb (ValidTransitionState (Ring.ofState s) r))
                      AllRingStates).
  { intros r. unfold reportEntry.
    destruct (fold_addState r AllRingStates (mkStateReportEntry r [] [])) as (H1 & H2 & H3).
    rewrite H1, H2, H3. auto. }
  split.
  - rewrite map_map. rewrite <- (map_id AllRingRequestStates) at 2.
    apply map_ext. intros r. apply Hentry.
  - intros entry Hin. apply in_map_iff in Hin. destruct Hin as [r [<- _]].
    destruct (Hentry r) as (H1 & H2 & H3). cbv zeta. rewrite H1.
    split; [exact H2 | split; [exact H3 | split]].
    + rewrite H2, H3. unfold Count. rewrite <- Nat2Z.inj_add. f_equal.
      apply filter_split_length.
    + intros s Hs. rewrite H2, H3, !filter_In, negb_true_iff. tauto.
Qed.

(** X4 at the entry of [release-requested]. *)
Lemma GetRingRequestStateReport_partitions_witness :
  let entry := reportEntry "release-requested" in
  ValidStates entry = ["stable"; "release-requested"; "release-failed"] /\
  (Count (ValidStates entry) + Count (InvalidStates entry) = 14)%Z.
Proof.
  intros entry.
  assert (Hin : In entry GetRingRequestStateReport).
  { right. left. reflexivity. }
  destruct (proj2 GetRingRequestStateReport_partitions entry Hin) as (Hv & _ & Hc & _).
  split; [exact Hv | exact Hc].
Defined.

(** ** How often [Supervise] calls *)

Section AtMost.
Context (c : event -> bool).

Lemma atMost_mono {R} (n m : nat) (p : prog R) :
  (n <= m)%nat -> atMost c n p -> atMost c m p.
Proof.
  revert n m. induction p as [r | e k IH]; intros n m Hle; cbn [atMost]; [trivial | ].
  destruct (c e).
  - destruct n as [| n]; [contradiction | ].
    destruct m as [| m]; [lia | ].
    intros H x. apply (IH x n m); [lia | apply H].
  - intros H x. apply (IH x n m Hle), H.
Qed.

Lemma atMost_bind {A B} (n m : nat) (p : prog A) (f : A -> prog B) :
  atMost c n p -> (forall a, atMost c m (f a)) -> atMost c (n + m) (bind p f).
Proof.
  intros Hp Hf. revert n Hp. induction p as [r | e k IH]; intros n Hp; cbn [bind atMost] in *.
  - apply atMost_mono with (n := m); [lia | apply Hf].
  - destruct (c e).
    + destruct n as [| n]; [contradiction | ]. cbn [Nat.add].
      intros x. apply IH, Hp.
    + intros x. apply IH, Hp.
Qed.

Lemma atMost_forEach {A} (l : list A) (f : A -> prog unit) :
  (forall a, atMost c 0 (f a)) -> atMost c 0 (forEach l f).
Proof.
  intros Hf. induction l as [| a l IH]; cbn [forEach]; [exact I | ].
  apply (atMost_bind 0 0); [apply Hf | intros _; exact IH].
Qed.

Lemma atMost_run {W R} (handle : forall e : event, W -> resp e * W)
      (n : nat) (p : prog R) (w : W) :
  atMost c n p -> (count c (trace (run handle p w)) <= n)%nat.
Proof.
  unfold count. revert n w. induction p as [r | e k IH]; intros n w; cbn [atMost run trace after].
  - intros _. cbn. lia.
  - cbn [filter]. destruct (c e).
    + destruct n as [| n]; [contradiction | ]. intros H. cbn [length].
      apply le_n_S. apply IH, H.
    + intros H. apply IH, H.
Qed.
End AtMost.

Ltac walk :=
  repeat match goal with
         | |- atMost _ _ (Ret _) => exact I
         | |- True => exact I
         | |- forall _, _ => intro
         | |- atMost _ _ (match ?x with Ok _ => _ | Err _ => _ end) => destruct x
         | |- atMost _ _ (if ?b then _ else _) => destruct b
         | |- _ => progress cbn [atMost bind call isProvisioner isLock isLockCall
                                  isUpdateRings isUpdateInstallationGroup isPostWebhook]
         end.

Lemma notify_plain c g n o :
  c TimeNowUnixNano = false -> c GetWebhooks = false ->
  (forall u p, c (PostWebhook u p) = false) ->
  atMost c 0 (notify g n o).
Proof.
  intros H1 H2 H3. unfold notify, SendToAllWebhooks. cbn [bind call atMost].
  rewrite H1. intros now. rewrite H2. intros [hooks | msg]; [| exact I].
  apply (atMost_bind c 0 0); [| intros; exact I].
  apply (atMost_bind c 0 0); [| intros; exact I].
  apply atMost_forEach. intros hook. cbn. rewrite H3. trivial.
Qed.

Lemma transition_provisions_once g : atMost isProvisioner 1 (transitionInstallationGroup g).
Proof.
  unfold transitionInstallationGroup. cbn [switch].
  repeat match goal with |- atMost _ _ (if ?b then _ else _) => destruct b end;
    [ unfold checkInstallationGroupPending
    | unfold releaseInstallationGroup
    | unfold soakInstallationGroup
    | exact I ]; walk.
Qed.

Lemma persist_never_provisions g n : atMost isProvisioner 0 (persist g n).
Proof.
  assert (Hn : forall g' o, atMost isProvisioner 0 (notify g' n o)).
  { intros. apply notify_plain; reflexivity. }
  unfold persist, commit.
  repeat first [apply Hn | progress walk].
Qed.

Lemma transition_never_writes g : atMost isUpdateInstallationGroup 0 (transitionInstallationGroup g).
Proof.
  unfold transitionInstallationGroup. cbn [switch].
  repeat match goal with |- atMost _ _ (if ?b then _ else _) => destruct b end;
    [ unfold checkInstallationGroupPending
    | unfold releaseInstallationGroup
    | unfold soakInstallationGroup
    | exact I ]; walk.
Qed.

Lemma transition_never_rings g : atMost isUpdateRings 0 (transitionInstallationGroup g).
Proof.
  unfold transitionInstallationGroup. cbn [switch].
  repeat match goal with |- atMost _ _ (if ?b then _ else _) => destruct b end;
    [ unfold checkInstallationGroupPending
    | unfold releaseInstallationGroup
    | unfold soakInstallationGroup
    | exact I ]; walk.
Qed.

Lemma persist_writes_once g n : atMost isUpdateInstallationGroup 1 (persist g n).
Proof.
  assert (Hn : forall g' o, atMost isUpdateInstallationGroup 0 (notify g' n o)).
  { intros. apply notify_plain; reflexivity. }
  unfold persist, commit.
  repeat first [apply Hn | progress walk].
Qed.

Lemma persist_rings_once g n : atMost isUpdateRings 1 (persist g n).
Proof.
  assert (Hn : forall g' o k, atMost isUpdateRings k (notify g' n o)).
  { intros. apply atMost_mono with (n := 0%nat); [lia | ].
    apply notify_plain; reflexivity. }
  unfold persist, commit.
  repeat first [apply Hn | progress walk].
Qed.

Lemma atMost_zero_filter {W R} (handle : forall e : event, W -> resp e * W)
      (c : event -> bool) (p : prog R) (w : W) :
  atMost c 0 p -> filter c (trace (run handle p w)) = [].
Proof.
  intros H. pose proof (atMost_run c handle 0 p w H) as Hc. unfold count in Hc.
  destruct (filter c _); [reflexivity | cbn in Hc; lia].
Qed.

Lemma superviseLocked_counts (c : event -> bool) (n m : nat) g :
  (forall id, c (GetInstallationGroupByID id) = false) ->
  (forall g1, atMost c n (transitionInstallationGroup g1)) ->
  (forall g2 s, atMost c m (persist g2 s)) ->
  atMost c (n + m) (superviseLocked g).
Proof.
  intros Hr Ht Hp.
  unfold superviseLocked. cbn [bind call atMost]. rewrite Hr. intros [g1 | msg]; [| exact I].
  destruct (negb _); [exact I | ].
  apply atMost_bind; [apply Ht | ].
  intros s. cbn [bind call atMost]. rewrite Hr. intros [g2 | msg]; [apply Hp | exact I].
Qed.

(** The calls of [Supervise] around the transition and the write count
    for nothing in [c]. *)
Lemma Supervise_counts (c : event -> bool) (n m : nat) i g :
  (forall e, isLockCall e = true -> c e = false) ->
  (forall id, c (GetInstallationGroupByID id) = false) ->
  (forall g1, atMost c n (transitionInstallationGroup g1)) ->
  (forall g2 s, atMost c m (persist g2 s)) ->
  atMost c (n + m) (Supervise i g).
Proof.
  intros Hl Hr Ht Hp. unfold Supervise.
  change (n + m)%nat with (0 + (n + m))%nat. apply atMost_bind.
  { unfold TryLock. cbn [bind call atMost].
    rewrite (Hl (LockRingInstallationGroup _ _) eq_refl). intros [b | msg]; exact I. }
  intros [|]; [| exact I].
  replace (n + m)%nat with ((n + m) + 0)%nat by lia. apply atMost_bind.
  - apply superviseLocked_counts; assumption.
  - intros _. unfold Unlock. cbn [bind call atMost].
    rewrite (Hl (UnlockRingInstallationGroup _ _ _) eq_refl). intros; exact I.
Qed.

(** X5: in one run of [Supervise], whatever the store and the provisioner
    answer, the provisioner is called once at most, one installation
    group is written at most, and one bulk update of rings is made at
    most. *)
Theorem Supervise_calls_once {W} (handle : forall e : event, W -> resp e * W)
        (w : W) (i : string) (g : InstallationGroup.t) :
  let t := trace (run handle (Supervise i g) w) in
  (count isProvisioner t <= 1)%nat /\
  (count isUpdateInstallationGroup t <= 1)%nat /\
  (count isUpdateRings t <= 1)%nat.
Proof.
  repeat split; apply atMost_run.
  - apply (Supervise_counts isProvisioner 1 0); auto using transition_provisions_once,
      persist_never_provisions. intros []; easy.
  - apply (Supervise_counts isUpdateInstallationGroup 0 1);
      auto using transition_never_writes, persist_writes_once. intros []; easy.
  - apply (Supervise_counts isUpdateRings 0 1);
      auto using transition_never_rings, persist_rings_once. intros []; easy.
Qed.

(** ** The calls and the edges of the transition *)

Ltac stroll :=
  repeat match goal with
         | |- safe _ _ _ (Ret _) => cbn [safe]
         | |- True => exact I
         | |- _ /\ _ => split
         | |- forall _, _ => intro
         | |- safe _ _ _ (if ?b then _ else _) => destruct b
         | |- safe _ _ _ (match ?x with Ok _ => _ | Err _ => _ end) => destruct x
         | |- _ => progress cbn [safe bind call]
         end.

Lemma transition_footprint (g : InstallationGroup.t) :
  safe (transitionCall g) anyAnswer (transitionEdge (InstallationGroup.State g))
       (transitionInstallationGroup g).
Proof.
  unfold transitionInstallationGroup. cbn [switch].
  destruct (String.eqb_spec (InstallationGroup.State g) InstallationGroupReleasePending)
    as [E1 | N1].
  { unfold checkInstallationGroupPending. stroll; cbn [transitionCall]; auto;
      left; (split; [exact E1 | cbn; auto]). }
  destruct (String.eqb_spec (InstallationGroup.State g) InstallationGroupReleaseRequested)
    as [E2 | N2].
  { unfold releaseInstallationGroup. stroll; cbn [transitionCall]; auto;
      right; left; (split; [exact E2 | cbn; auto]). }
  destruct (String.eqb_spec (InstallationGroup.State g)
                            InstallationGroupReleaseSoakingRequested) as [E3 | N3].
  { unfold soakInstallationGroup. stroll; cbn [transitionCall]; auto;
      right; right; left; (split; [exact E3 | cbn; auto]). }
  cbn [safe]. right; right; right. auto.
Qed.

(** X6: the state computed for an installation group follows an edge of
    the state machine, and the transition only reads the ring of the
    group, the locked and releasing groups and the ring release, and
    calls the provisioner for the group itself: the release for
    [release-requested], the soaking for [soaking-requested]; it writes
    nothing and takes no lock. *)
Theorem transitionInstallationGroup_footprint
    {W} (handle : forall e : event, W -> resp e * W) (w : W) (g : InstallationGroup.t) :
  transitionEdge (InstallationGroup.State g)
                 (value (run handle (transitionInstallationGroup g) w)) /\
  Forall (transitionCall g) (trace (run handle (transitionInstallationGroup g) w)).
Proof.
  destruct (safe_run (transitionCall g) anyAnswer handle
              (transitionEdge (InstallationGroup.State g))
              (transitionInstallationGroup g)
              (fun _ _ => I) (transition_footprint g) w) as [Ht Hv].
  split; assumption.
Qed.

Lemma quot_seconds (a s : Z) :
  (0 < s)%Z -> (s <= a ÷ Second <-> s * Second <= a)%Z.
Proof.
  intros Hs. unfold Second.
  destruct (Z.lt_ge_cases a 0) as [Hneg | Hpos].
  - assert (Hq : (a ÷ 1000000000 <= 0)%Z).
    { replace a with (- (- a))%Z by lia. rewrite Z.quot_opp_l by lia.
      pose proof (Z.quot_pos (- a) 1000000000). lia. }
    lia.
  - rewrite Z.quot_div_nonneg by lia. split; intros H.
    + pose proof (Z.mul_div_le a 1000000000). nia.
    + apply Z.div_le_lower_bound; lia.
Qed.

Section SoakTiming.
Context {W : Type} (handle : forall e : event, W -> resp e * W).

(** X7: for a positive [SoakTime] and without overflow, the provisioner
    soaks the installation group exactly when [SoakTime] seconds, in
    nanoseconds, have passed since [ReleaseAt]. *)
Theorem soak_not_before_SoakTime (w : W) (g : InstallationGroup.t) :
  InstallationGroup.State g = "soaking-requested" ->
  (0 < InstallationGroup.SoakTime g)%Z ->
  let now := fst (handle TimeNowUnixNano w) in
  (- 2 ^ 63 <= now - InstallationGroup.ReleaseAt g < 2 ^ 63)%Z ->
  (In (SoakInstallationGroup g) (trace (run handle (transitionInstallationGroup g) w))
   <-> (InstallationGroup.SoakTime g * Second <= now - InstallationGroup.ReleaseAt g)%Z).
Proof.
  intros Hst Hpos now Hrange.
  rewrite (transition_soaking g Hst). unfold soakInstallationGroup.
  cbn [bind call run]. fold now.
  rewrite <- quot_seconds by assumption.
  unfold timePassed. rewrite wrap64_small by assumption.
  destruct (Z.ltb_spec ((now - InstallationGroup.ReleaseAt g) ÷ Second)
                       (InstallationGroup.SoakTime g)) as [Hlt | Hge].
  - cbn [run trace after In]. split; [| lia].
    intros [H | []]. discriminate H.
  - cbn [bind run trace after]. split; [intros _; exact Hge | intros _].
    cbn [In]. right. left. reflexivity.
Qed.
End SoakTiming.


(** X7 for a group released at time 0 that soaks for 60 seconds, at 61
    seconds. *)
Lemma soak_not_before_SoakTime_witness :
  let g := InstallationGroup.withState "soaking-requested" groupA in
  In (SoakInstallationGroup g)
     (trace (run scripted (transitionInstallationGroup g) (store1, [clockAt 61]))).
Proof.
  intros g.
  assert (Hrange : (- 2 ^ 63
                    <= fst (scripted TimeNowUnixNano (store1, [clockAt 61]))
                       - InstallationGroup.ReleaseAt g < 2 ^ 63)%Z)
    by (vm_compute; split; [discriminate | reflexivity]).
  apply (proj2 (soak_not_before_SoakTime scripted (store1, [clockAt 61]) g
                  eq_refl eq_refl Hrange)).
  vm_compute. discriminate.
Defined.

(** ** What [persist] writes and sends *)

Lemma safe_notify_payload (pre : event -> Prop) g n o :
  pre TimeNowUnixNano -> pre GetWebhooks ->
  (forall u now, pre (PostWebhook u (WebhookPayload.mk TypeRing (InstallationGroup.ID g)
                                                        n o now))) ->
  safe pre anyAnswer (fun _ => True) (notify g n o).
Proof.
  intros H1 H2 H3. unfold notify, SendToAllWebhooks. cbn [bind call safe].
  split; [exact H1 | intros now _].
  split; [exact H2 | intros [hooks | msg] _]; [| exact I].
  apply safe_bind with (Q := fun _ => True); [| intros; exact I].
  apply safe_bind with (Q := fun _ => True); [| intros; exact I].
  apply safe_forEach with (P := fun _ => True).
  - apply Forall_forall. trivial.
  - intros hook _. cbn. split; [apply H3 | trivial].
Qed.

Lemma safe_commit_cascade (pre : event -> Prop) g n o :
  pre (UpdateInstallationGroup g) ->
  (isFailure n -> pre GetRingsPendingWork /\
                  forall rs, pre (UpdateRings (map (Ring.withState RingStateReleaseFailed) rs))) ->
  safe pre anyAnswer (fun _ => True) (notify g n o) ->
  safe pre anyAnswer (fun _ => True) (commit g n o).
Proof.
  intros Hup Hfail Hn. unfold commit. cbn [bind call safe].
  split; [exact Hup | intros [u | msg] _]; [| exact I].
  destruct (_ || _) eqn:Hf; [| exact Hn].
  assert (Hn' : isFailure n).
  { apply orb_true_iff in Hf. destruct Hf as [H | H]; apply String.eqb_eq in H;
      [left | right]; exact H. }
  destruct (Hfail Hn') as [Hg Hu].
  cbn [bind call safe].
  split; [exact Hg | intros [rs | msg] _]; [| exact I].
  cbn [bind call safe].
  split; [apply Hu | intros [u' | msg] _]; [| exact I].
  exact Hn.
Qed.

Lemma persist_footprint (g : InstallationGroup.t) (newState : string) :
  safe (persistCall g newState) anyAnswer (fun _ => True) (persist g newState).
Proof.
  unfold persist.
  destruct (String.eqb_spec (InstallationGroup.State g) newState) as [E | N]; [exact I | ].
  assert (Hnotify : forall g', InstallationGroup.ID g' = InstallationGroup.ID g ->
            safe (persistCall g newState) anyAnswer (fun _ => True)
                 (notify g' newState (InstallationGroup.State g))).
  { intros g' Hid. apply safe_notify_payload; try exact I.
    intros u now. cbn. rewrite Hid. repeat split. congruence. }
  assert (Hcascade : isFailure newState ->
            persistCall g newState GetRingsPendingWork /\
            forall rs, persistCall g newState
                         (UpdateRings (map (Ring.withState RingStateReleaseFailed) rs))).
  { intros Hf. split; [exact Hf | ]. intros rs. split; [exact Hf | ].
    apply Forall_forall. intros r Hr. apply in_map_iff in Hr.
    destruct Hr as [r0 [<- _]]. reflexivity. }
  destruct (_ && _) eqn:Hstamp.
  - apply andb_true_iff in Hstamp. destruct Hstamp as [Hold Hnew].
    apply String.eqb_eq in Hold. apply orb_true_iff in Hnew.
    cbn [bind call safe]. split; [exact I | intros now _].
    apply safe_commit_cascade; [| exact Hcascade | apply Hnotify; reflexivity].
    exists now. split; [reflexivity | ]. intros _. split; [exact Hold | ].
    destruct Hnew as [H | H]; apply String.eqb_eq in H; [left | right]; exact H.
  - apply safe_commit_cascade; [| exact Hcascade | apply Hnotify; reflexivity].
    exists (InstallationGroup.ReleaseAt g). split; [reflexivity | ].
    intros H. contradiction.
Qed.

Section Persist.
Context {W : Type} (handle : forall e : event, W -> resp e * W).

Lemma persist_calls (w : W) (g : InstallationGroup.t) (newState : string) :
  Forall (persistCall g newState) (trace (run handle (persist g newState) w)).
Proof.
  apply (safe_run (persistCall g newState) anyAnswer handle (fun _ => True)).
  - intros e w'. exact I.
  - apply persist_footprint.
Qed.

(** X8: [persist] writes the row it was given with the new state, which
    is not the state of the row; [ReleaseAt] is changed only when the row
    goes from [release-requested] to [soaking-requested] or [stable];
    [persist] calls no provisioner and no lock. *)
Theorem persist_writes_the_row_read (w : W) (g : InstallationGroup.t) (newState : string) :
  Forall (fun e =>
            match e with
            | UpdateInstallationGroup g' =>
                InstallationGroup.ID g' = InstallationGroup.ID g /\
                InstallationGroup.Name g' = InstallationGroup.Name g /\
                InstallationGroup.SoakTime g' = InstallationGroup.SoakTime g /\
                InstallationGroup.LockAcquiredBy g' = InstallationGroup.LockAcquiredBy g /\
                InstallationGroup.LockAcquiredAt g' = InstallationGroup.LockAcquiredAt g /\
                InstallationGroup.State g' = newState /\
                newState <> InstallationGroup.State g /\
                (InstallationGroup.ReleaseAt g' <> InstallationGroup.ReleaseAt g ->
                 InstallationGroup.State g = "release-requested" /\
                 (newState = "soaking-requested" \/ newState = "stable"))
            | LockRingInstallationGroup _ _ => False
            | UnlockRingInstallationGroup _ _ _ => False
            | ReleaseInstallationGroup _ _ _ => False
            | SoakInstallationGroup _ => False
            | _ => True
            end)
         (trace (run handle (persist g newState) w)).
Proof.
  destruct (String.eqb_spec (InstallationGroup.State g) newState) as [E | N].
  { unfold persist. rewrite E, String.eqb_refl. constructor. }
  eapply Forall_impl; [| apply persist_calls].
  intros e He. destruct e; try exact I; try contradiction.
  destruct He as [at_ [-> Hat]]. cbn.
  repeat (split; [reflexivity || congruence | ]). exact Hat.
Qed.

(** X9: [persist] fetches and updates rings only when the new state is
    [release-failed] or [soaking-failed], and every ring of its bulk
    update is in [release-failed]. *)
Theorem persist_touches_rings_on_failure_only
    (w : W) (g : InstallationGroup.t) (newState : string) :
  Forall (fun e =>
            match e with
            | GetRingsPendingWork => isFailure newState
            | UpdateRings rs =>
                isFailure newState /\ Forall (fun r => Ring.State r = "release-failed") rs
            | _ => True
            end)
         (trace (run handle (persist g newState) w)).
Proof.
  eapply Forall_impl; [| apply persist_calls].
  intros e He. destruct e; try exact I; exact He.
Qed.

(** X10: every payload [persist] sends carries the ID of the
    installation group, the new state and the old state, and these two
    differ. *)
Theorem persist_webhook_payload (w : W) (g : InstallationGroup.t) (newState : string) :
  Forall (fun e =>
            match e with
            | PostWebhook _ p =>
                WebhookPayload.ID p = InstallationGroup.ID g /\
                WebhookPayload.NewState p = newState /\
                WebhookPayload.OldState p = InstallationGroup.State g /\
                WebhookPayload.NewState p <> WebhookPayload.OldState p
            | _ => True
            end)
         (trace (run handle (persist g newState) w)).
Proof.
  eapply Forall_impl; [| apply persist_calls].
  intros e He. destruct e; try exact I; exact He.
Qed.
End Persist.

Lemma transition_never_locks g : atMost isLockCall 0 (transitionInstallationGroup g).
Proof.
  unfold transitionInstallationGroup. cbn [switch].
  repeat match goal with |- atMost _ _ (if ?b then _ else _) => destruct b end;
    [ unfold checkInstallationGroupPending
    | unfold releaseInstallationGroup
    | unfold soakInstallationGroup
    | exact I ]; walk.
Qed.

Lemma persist_never_locks g n : atMost isLockCall 0 (persist g n).
Proof.
  assert (Hn : forall g' o, atMost isLockCall 0 (notify g' n o)).
  { intros. apply notify_plain; reflexivity. }
  unfold persist, commit.
  repeat first [apply Hn | progress walk].
Qed.

Lemma superviseLocked_never_locks g : atMost isLockCall 0 (superviseLocked g).
Proof.
  apply (superviseLocked_counts isLockCall 0 0);
    auto using transition_never_locks, persist_never_locks.
Qed.

(** ** Locks *)

Section Locking.
Context {W : Type} (handle : forall e : event, W -> resp e * W).

(** X11: when the lock is not acquired, [Supervise] makes no other call;
    when it is, the run ends with the unlock of the same installation
    group by the same instance, without force, and no other lock call is
    made in between. *)
Theorem Supervise_lock_balance (w : W) (i : string) (g : InstallationGroup.t) :
  let lock := LockRingInstallationGroup (InstallationGroup.ID g) i in
  let unlock := UnlockRingInstallationGroup (InstallationGroup.ID g) i false in
  (fst (handle lock w) <> Ok true ->
   run handle (Supervise i g) w = mkOutcome tt (snd (handle lock w)) [lock]) /\
  (fst (handle lock w) = Ok true ->
   exists body,
     trace (run handle (Supervise i g) w) = lock :: body ++ [unlock] /\
     filter isLockCall body = []).
Proof.
  intros lock unlock. unfold Supervise, TryLock. cbn [bind call run]. fold lock.
  split.
  - intros Hno. destruct (fst (handle lock w)) as [[|] | msg]; try reflexivity.
    contradiction Hno. reflexivity.
  - intros ->. cbn [bind]. rewrite run_bind. cbn [after trace].
    exists (trace (run handle (superviseLocked g) (snd (handle lock w)))).
    split; [reflexivity | ].
    apply atMost_zero_filter, superviseLocked_never_locks.
Qed.

(** X12: when the installation group read under the lock is in another
    state than the one discovered, [Supervise] only unlocks: no
    transition is computed and nothing is written. *)
Theorem Supervise_skips_changed_group
    (w : W) (i : string) (g g1 : InstallationGroup.t) (w1 w2 : W) :
  let lock := LockRingInstallationGroup (InstallationGroup.ID g) i in
  let read := GetInstallationGroupByID (InstallationGroup.ID g) in
  let unlock := UnlockRingInstallationGroup (InstallationGroup.ID g) i false in
  handle lock w = (Ok true, w1) ->
  handle read w1 = (Ok g1, w2) ->
  InstallationGroup.State g1 <> InstallationGroup.State g ->
  run handle (Supervise i g) w = mkOutcome tt (snd (handle unlock w2)) [lock; read; unlock].
Proof.
  intros lock read unlock Hlock Hread Hne.
  unfold Supervise, TryLock. cbn [bind call]. rewrite (run_Vis handle _ _ _ _ _ Hlock).
  cbn [bind]. rewrite run_bind.
  unfold superviseLocked. cbn [bind call]. rewrite (run_Vis handle _ _ _ _ _ Hread).
  apply String.eqb_neq in Hne. rewrite Hne. cbn [negb]. reflexivity.
Qed.

Lemma Supervise_one_lock (w : W) (i : string) (g : InstallationGroup.t) :
  filter isLock (trace (run handle (Supervise i g) w))
  = [LockRingInstallationGroup (InstallationGroup.ID g) i].
Proof.
  unfold Supervise, TryLock. cbn [bind call run after trace filter isLock]. f_equal.
  apply atMost_zero_filter.
  destruct (fst (handle _ w)) as [[|] | msg]; cbn [bind]; try exact I.
  apply (atMost_bind isLock 0 0).
  - apply (superviseLocked_counts isLock 0 0); try reflexivity.
    + intros g1. unfold transitionInstallationGroup. cbn [switch].
      repeat match goal with |- atMost _ _ (if ?b then _ else _) => destruct b end;
        [ unfold checkInstallationGroupPending
        | unfold releaseInstallationGroup
        | unfold soakInstallationGroup
        | exact I ]; walk.
    + intros g2 s.
      assert (Hn : forall g' o, atMost isLock 0 (notify g' s o)).
      { intros. apply notify_plain; reflexivity. }
      unfold persist, commit. repeat first [apply Hn | progress walk].
  - intros _. unfold Unlock. cbn. trivial.
Qed.

Lemma app_firstn {A} (a b : list A) : firstn (length a) (a ++ b) = a.
Proof. induction a as [| x a IH]; cbn; [reflexivity | now rewrite IH]. Qed.

(** X13: a run of [Do] that reaches its end has tried the lock of every
    installation group discovered, once each and in order; and at any
    point of a run, the locks tried so far are those of the first groups
    discovered, once each and in order. *)
Theorem Do_visits_every_group
    (w : W) (i : string) (groups : list InstallationGroup.t) (w1 : W) :
  handle GetInstallationGroupsPendingWork w = (Ok groups, w1) ->
  let locks := map (fun g => LockRingInstallationGroup (InstallationGroup.ID g) i) groups in
  filter isLock (trace (run handle (Do i) w)) = locks /\
  (forall before after,
      trace (run handle (Do i) w) = (before ++ after)%list ->
      filter isLock before = firstn (length (filter isLock before)) locks).
Proof.
  intros Hfound locks.
  assert (Hall : filter isLock (trace (run handle (Do i) w)) = locks).
  { subst locks. unfold Do. cbn [bind call]. rewrite (run_Vis handle _ _ _ _ _ Hfound).
    cbn [trace after filter isLock]. clear Hfound. revert w1.
    induction groups as [| g l IH]; intros w1; [reflexivity | ].
    cbn [forEach map]. rewrite run_bind. cbn [trace]. rewrite filter_app.
    rewrite Supervise_one_lock, IH. reflexivity. }
  split; [exact Hall | ].
  intros before after Hsplit. rewrite <- Hall, Hsplit, filter_app.
  symmetry. apply app_firstn.
Qed.
End Locking.

Section CommitErrors.
Context {W : Type} (handle : forall e : event, W -> resp e * W).

(** X14: an error of the write of the installation group, of the fetch
    of the rings or of their bulk update ends [commit] at that call:
    nothing is called after it, no webhook in particular. *)
Theorem commit_stops_at_errors (w : W) (g : InstallationGroup.t) (n o : string) :
  let write := UpdateInstallationGroup g in
  (forall msg w1,
      handle write w = (Err msg, w1) ->
      run handle (commit g n o) w = mkOutcome tt w1 [write]) /\
  (forall w1,
      handle write w = (Ok tt, w1) -> isFailure n ->
      (forall msg w2,
          handle GetRingsPendingWork w1 = (Err msg, w2) ->
          run handle (commit g n o) w = mkOutcome tt w2 [write; GetRingsPendingWork]) /\
      (forall rings w2 msg w3,
          handle GetRingsPendingWork w1 = (Ok rings, w2) ->
          let bulk := UpdateRings (map (Ring.withState "release-failed") rings) in
          handle bulk w2 = (Err msg, w3) ->
          run handle (commit g n o) w
          = mkOutcome tt w3 [write; GetRingsPendingWork; bulk])).
Proof.
  intros write. split.
  - intros msg w1 H. unfold commit. cbn [bind call].
    rewrite (run_Vis handle _ _ _ _ _ H). reflexivity.
  - intros w1 H Hf. unfold commit. cbn [bind call].
    rewrite (run_Vis handle _ _ _ _ _ H).
    replace (String.eqb n InstallationGroupReleaseFailed
             || String.eqb n InstallationGroupReleaseSoakingFailed) with true
      by (destruct Hf as [-> | ->]; reflexivity).
    cbn [bind]. split.
    + intros msg w2 Hr. rewrite (run_Vis handle _ _ _ _ _ Hr). reflexivity.
    + intros rings w2 msg w3 Hr Hb. rewrite (run_Vis handle _ _ _ _ _ Hr).
      cbn [bind]. rewrite (run_Vis handle _ _ _ _ _ Hb). reflexivity.
Qed.
End CommitErrors.

Lemma safe_pre_mono {R} (pre pre' : event -> Prop) (post : forall e, resp e -> Prop)
      (Q : R -> Prop) (p : prog R) :
  (forall e, pre e -> pre' e) -> safe pre post Q p -> safe pre' post Q p.
Proof.
  intros Hpre. induction p as [r | e k IH]; cbn [safe]; [trivial | ].
  intros [He Hk]. split; [apply Hpre, He | ]. intros x Hx. apply IH, Hk, Hx.
Qed.

Lemma followsEdge_benign s : benign (followsEdge s).
Proof. intros []; exact I. Qed.

Lemma superviseLocked_follows_edges g :
  safe (followsEdge (InstallationGroup.State g)) anyAnswer (fun _ => True)
       (superviseLocked g).
Proof.
  unfold superviseLocked. cbn [bind call safe].
  split; [exact I | intros [g1 | msg] _]; [| exact I].
  destruct (String.eqb_spec (InstallationGroup.State g1) (InstallationGroup.State g))
    as [E | N]; cbn [negb]; [| exact I].
  eapply safe_bind.
  - eapply safe_pre_mono; [| apply transition_footprint].
    intros e He. destruct e; try exact I; contradiction.
  - intros newState Hedge. cbn [bind call safe].
    split; [exact I | intros [g2 | msg] _]; [| exact I].
    apply safe_persist; [apply followsEdge_benign | ].
    intros g' Hs _. cbn. rewrite Hs, <- E. exact Hedge.
Qed.

(** X15: whatever the store and the provisioner answer, every state
    [Supervise] writes for an installation group follows an edge of the
    state machine from the state the group was discovered in. *)
Theorem Supervise_writes_follow_edges
    {W} (handle : forall e : event, W -> resp e * W)
    (w : W) (i : string) (g : InstallationGroup.t) :
  Forall (followsEdge (InstallationGroup.State g))
         (trace (run handle (Supervise i g) w)).
Proof.
  apply (safe_run (followsEdge (InstallationGroup.State g)) anyAnswer handle
                  (fun _ => True)).
  - intros e w'. exact I.
  - apply safe_Supervise; [apply followsEdge_benign | ].
    apply superviseLocked_follows_edges.
Qed.

(** ** The further properties on the small system *)

(** X11: group a is locked by another instance; group a is free. *)
Lemma Supervise_lock_balance_witness :
  run scripted (Supervise "supervisor-2" groupA) (store1Locked, [])
  = mkOutcome tt (store1Locked, [])
              [LockRingInstallationGroup "ig-a" "supervisor-2"] /\
  exists body,
    trace (run scripted (Supervise "supervisor-1" groupA) (store1, []))
    = LockRingInstallationGroup "ig-a" "supervisor-1"
        :: body ++ [UnlockRingInstallationGroup "ig-a" "supervisor-1" false] /\
    filter isLockCall body = [].
Proof.
  split.
  - apply (proj1 (Supervise_lock_balance scripted (store1Locked, []) "supervisor-2" groupA)).
    discriminate.
  - apply (proj2 (Supervise_lock_balance scripted (store1, []) "supervisor-1" groupA)).
    reflexivity.
Defined.

(** X12: group a was discovered in [release-pending] and is read in
    [release-requested]. *)
Lemma Supervise_skips_changed_group_witness :
  let st :=
    setInstallationGroups
      [InstallationGroup.withState "release-requested" groupA; groupB] store1 in
  trace (run scripted (Supervise "supervisor-1" groupA) (st, []))
  = [ LockRingInstallationGroup "ig-a" "supervisor-1";
      GetInstallationGroupByID "ig-a";
      UnlockRingInstallationGroup "ig-a" "supervisor-1" false ].
Proof.
  intros st.
  pose (locked := snd (scripted (LockRingInstallationGroup "ig-a" "supervisor-1") (st, []))).
  rewrite (Supervise_skips_changed_group scripted (st, []) "supervisor-1" groupA
             (withLock (Some "supervisor-1") 0
                       (InstallationGroup.withState "release-requested" groupA))
             locked locked eq_refl eq_refl).
  - reflexivity.
  - discriminate.
Defined.

(** X13: both groups of the small system are tried, and after the first
    six calls of the run only group a has been. *)
Lemma Do_visits_every_group_witness :
  let t := trace (run scripted (Do "supervisor-1") (store1, [])) in
  filter isLock t
  = [ LockRingInstallationGroup "ig-a" "supervisor-1";
      LockRingInstallationGroup "ig-b" "supervisor-1" ] /\
  filter isLock (firstn 6 t) = [LockRingInstallationGroup "ig-a" "supervisor-1"].
Proof.
  intros t.
  destruct (Do_visits_every_group scripted (store1, []) "supervisor-1" [groupA; groupB]
              (store1, []) eq_refl) as [Hall Hprefix].
  split; [exact Hall | ].
  rewrite (Hprefix (firstn 6 t) (skipn 6 t) (eq_sym (firstn_skipn 6 t))).
  vm_compute. reflexivity.
Defined.

(** X14: the write of group a fails; the fetch of the rings fails; their
    bulk update fails. *)
Lemma commit_stops_at_errors_witness :
  let g := InstallationGroup.withState "release-failed" groupA in
  let run_ script :=
    trace (run scripted (commit g "release-failed" "release-pending") (store1, script)) in
  run_ [storeFails] = [UpdateInstallationGroup g] /\
  run_ [calm; storeFails] = [UpdateInstallationGroup g; GetRingsPendingWork] /\
  run_ [calm; calm; storeFails]
  = [ UpdateInstallationGroup g; GetRingsPendingWork;
      UpdateRings [Ring.withState "release-failed" ring1] ].
Proof.
  intros g run_. subst run_. cbv beta.
  pose (written := snd (storeCall calm (UpdateInstallationGroup g) store1)).
  repeat apply conj.
  - destruct (commit_stops_at_errors scripted (store1, [storeFails]) g
                "release-failed" "release-pending") as [Hw _].
    rewrite (Hw transient (store1, []) eq_refl). reflexivity.
  - destruct (commit_stops_at_errors scripted (store1, [calm; storeFails]) g
                "release-failed" "release-pending") as [_ Hc].
    destruct (Hc (written, [storeFails]) eq_refl (or_introl eq_refl)) as [Hf _].
    rewrite (Hf transient (written, []) eq_refl). reflexivity.
  - destruct (commit_stops_at_errors scripted (store1, [calm; calm; storeFails]) g
                "release-failed" "release-pending") as [_ Hc].
    destruct (Hc (written, [calm; storeFails]) eq_refl (or_introl eq_refl)) as [_ Hb].
    rewrite (Hb [ring1] (written, [storeFails]) transient (written, []) eq_refl eq_refl).
    reflexivity.
Defined.
